(** * BDS edge states in two dimensions

    A shallow embedding of [src/BDS/hydro_bds_edge_state_2D.cpp]
    (AMReX-Hydro): the bicubic corner interpolation, the bilinear slopes with
    their constrained limiter, and the Gamma-plus / Gamma-minus assembly of
    the edge states on x- and y-faces.

    [amrex::Real] is a build-time choice of floating-point type.  The kernels
    below are written once, over an interface [RealArith] that provides the
    arithmetic the source uses, and are then read through two instances:

    - [Q_RealArith]: exact rational arithmetic, the idealised reading in
      which the algebraic properties of the scheme are stated and proved
      (rounding aside);
    - [B64_RealArith]: IEEE-754 binary64 with round-to-nearest-even
      ([spec_float] of the Standard Library, precision 53), where signed
      zeros and rounding are visible.  It is used where a property speaks
      of floating-point values, and to run the kernels on concrete states.

    Index spaces: an [Array4] is a total function of the cell indices
    [(i,j)]; the third index [k] of the source is a placeholder in 2D and is
    dropped.  Ghost cells are whatever the caller put into the array.  A
    MultiFab is modelled on a single box, without tiling.

    [amrex::min], [amrex::max], [amrex::Abort], [Box], [MultiFab] and
    [ParallelFor] belong to the AMReX library; they are modelled by what
    they do in this file's use of them. *)

From Stdlib Require Import ZArith QArith Qabs Lqa Lia List String SpecFloat.
Import ListNotations.

Local Open Scope Z_scope.

(** ** The arithmetic of [amrex::Real] *)

Class RealArith (T : Type) : Type := {
  radd : T -> T -> T;
  rsub : T -> T -> T;
  rmul : T -> T -> T;
  rdiv : T -> T -> T;
  rltb : T -> T -> bool;        (* [a < b] *)
  rlit : Q -> T;                (* a decimal literal of the source *)
  rcopysign : T -> T -> T       (* [std::copysign] *)
}.

Declare Scope real_scope.
Delimit Scope real_scope with real.
Infix "+" := radd : real_scope.
Infix "-" := rsub : real_scope.
Infix "*" := rmul : real_scope.
Infix "/" := rdiv : real_scope.
Notation "a <? b" := (rltb a b) : real_scope.
Notation "a >? b" := (rltb b a) : real_scope.

(** *** Exact rationals *)

Definition Qltb (a b : Q) : bool :=
  match Qcompare a b with Lt => true | _ => false end.

Definition Qcopysign (x y : Q) : Q :=
  if Qltb y 0 then Qopp (Qabs x) else Qabs x.

#[export] Instance Q_RealArith : RealArith Q := {|
  radd := Qplus;
  rsub := Qminus;
  rmul := Qmult;
  rdiv := Qdiv;
  rltb := Qltb;
  rlit := fun q => q;
  rcopysign := Qcopysign
|}.

(** *** IEEE-754 binary64 *)

Module B64.

Definition prec : Z := 53.
Definition emax : Z := 1024.

Definition t : Type := spec_float.

Definition of_Z (z : Z) : t := binary_normalize prec emax z 0 false.

(** A decimal literal [n/d] is the correctly rounded quotient of two
    integers that are exact in binary64 (all literals of the source are
    of that form). *)
Definition lit (q : Q) : t :=
  SFdiv prec emax (of_Z (Qnum q)) (of_Z (Zpos (Qden q))).

(** The sign bit.  [spec_float] has a single NaN without a sign; it is
    read as positive. *)
Definition signbit (x : t) : bool :=
  match x with
  | S754_zero s => s
  | S754_infinity s => s
  | S754_nan => false
  | S754_finite s _ _ => s
  end.

Definition copysign (x y : t) : t :=
  match x with
  | S754_zero _ => S754_zero (signbit y)
  | S754_infinity _ => S754_infinity (signbit y)
  | S754_nan => S754_nan
  | S754_finite _ m e => S754_finite (signbit y) m e
  end.

Definition is_nan (x : t) : bool :=
  match x with S754_nan => true | _ => false end.

Definition pzero : t := S754_zero false.
Definition nzero : t := S754_zero true.

End B64.

#[export] Instance B64_RealArith : RealArith B64.t := {|
  radd := SFadd B64.prec B64.emax;
  rsub := SFsub B64.prec B64.emax;
  rmul := SFmul B64.prec B64.emax;
  rdiv := SFdiv B64.prec B64.emax;
  rltb := SFltb;
  rlit := B64.lit;
  rcopysign := B64.copysign
|}.

(** ** Boxes and arrays *)

(** [amrex::Box] in two dimensions: the inclusive index range
    [lo_i..hi_i] x [lo_j..hi_j]. *)
Record Box : Type := mkBox { lo_i : Z; lo_j : Z; hi_i : Z; hi_j : Z }.

Definition contains (bx : Box) (i j : Z) : bool :=
  (lo_i bx <=? i) && (i <=? hi_i bx) && (lo_j bx <=? j) && (j <=? hi_j bx).

(** [Box::grow(n)] *)
Definition grow (bx : Box) (n : Z) : Box :=
  mkBox (lo_i bx - n) (lo_j bx - n) (hi_i bx + n) (hi_j bx + n).

(** [amrex::convert(ba, IntVect(1,1))]: the nodal box of a cell-centred box. *)
Definition convert_nodal (bx : Box) : Box :=
  mkBox (lo_i bx) (lo_j bx) (hi_i bx + 1) (hi_j bx + 1).

(** The boxes of the face-centred MultiFabs [umac] (x-faces) and [vmac]
    (y-faces) that live on the cell-centred box [bx]. *)
Definition xface_box (bx : Box) : Box :=
  mkBox (lo_i bx) (lo_j bx) (hi_i bx + 1) (hi_j bx).
Definition yface_box (bx : Box) : Box :=
  mkBox (lo_i bx) (lo_j bx) (hi_i bx) (hi_j bx + 1).

Section Kernels.

Context {T : Type} {RA : RealArith T}.
Local Open Scope real_scope.

(** [Array4<Real>] restricted to one component; [Array4n] keeps the
    component index, as in [slope(i,j,k,n)]. *)
Definition Array4 : Type := Z -> Z -> T.
Definition Array4n : Type := Z -> Z -> Z -> T.

(** A MultiFab on a single box: the valid box and the data by component
    (ghost cells included).  [array mf comp] is [mf.array(mfi, comp)]. *)
Record MultiFab : Type := mkMultiFab { boxArray : Box; fab : Array4n }.

Definition array (mf : MultiFab) (comp : Z) : Array4 :=
  fun i j => fab mf i j comp.

(** [amrex::ParallelFor(bx, f)] where the body [f] assigns [a(i,j)]: every
    index of [bx] receives the value of the body, the others keep what the
    array held. *)
Definition ParallelFor (bx : Box) (f : Z -> Z -> T) (a : Array4) : Array4 :=
  fun i j => if contains bx i j then f i j else a i j.

Definition ParallelFor_n (bx : Box) (f : Z -> Z -> Z -> T) (a : Array4n)
  : Array4n :=
  fun i j n => if contains bx i j then f i j n else a i j n.

(** Writing one component of a MultiFab through [mf.array(mfi, comp)]. *)
Definition write_comp (mf : MultiFab) (comp : Z) (a : Array4) : MultiFab :=
  mkMultiFab (boxArray mf)
    (fun i j n => if (n =? comp)%Z then a i j else fab mf i j n).

(** [amrex::min], [amrex::max] (two arguments: [std::min], [std::max];
    more: folded from the left). *)
Definition rmin (a b : T) : T := if b <? a then b else a.
Definition rmax (a b : T) : T := if a <? b then b else a.
Definition rmin4 (a b c d : T) : T := rmin (rmin (rmin a b) c) d.
Definition rmax4 (a b c d : T) : T := rmax (rmax (rmax a b) c) d.

(** [constexpr amrex::Real eps = 1.0e-8] *)
Definition eps : T := rlit (1 # 100000000).

(** *** Bicubic interpolation to corner points (lines 112-121) *)
Definition sint_kernel (s : Array4) (i j : Z) : T :=
  (s (i-2)%Z (j-2)%Z + s (i-2)%Z (j+1)%Z + s (i+1)%Z (j-2)%Z + s (i+1)%Z (j+1)%Z
   - rlit 7 * (s (i-2)%Z (j-1)%Z + s (i-2)%Z j + s (i-1)%Z (j-2)%Z + s i (j-2)%Z +
               s (i-1)%Z (j+1)%Z + s i (j+1)%Z + s (i+1)%Z (j-1)%Z + s (i+1)%Z j)
   + rlit 49 * (s (i-1)%Z (j-1)%Z + s i (j-1)%Z + s (i-1)%Z j + s i j))
  / rlit 144.

(** *** Slopes and their limiter (lines 133-236) *)

(** [Array1D<Real,1,4>], indexed 1..4. *)
Record Array1D : Type := mkArray1D { a1 : T; a2 : T; a3 : T; a4 : T }.

Definition get (a : Array1D) (mm : Z) : T :=
  match mm with
  | 1%Z => a1 a
  | 2%Z => a2 a
  | 3%Z => a3 a
  | _ => a4 a
  end.

Definition set (a : Array1D) (mm : Z) (v : T) : Array1D :=
  match mm with
  | 1%Z => mkArray1D v (a2 a) (a3 a) (a4 a)
  | 2%Z => mkArray1D (a1 a) v (a3 a) (a4 a)
  | 3%Z => mkArray1D (a1 a) (a2 a) v (a4 a)
  | 4%Z => mkArray1D (a1 a) (a2 a) (a3 a) v
  | _ => a
  end.

(** The three slope components [slope(i,j,k,0..2)] of one cell. *)
Record Slopes : Type := mkSlopes { sx : T; sy : T; sxy : T }.

Definition slope_comp (sl : Slopes) (n : Z) : T :=
  match n with
  | 0%Z => sx sl
  | 1%Z => sy sl
  | _ => sxy sl
  end.

(** Initial estimates from the unlimited corner points (lines 146-150). *)
Definition unlimited_slopes (sint : Array4) (hx hy : T) (i j : Z) : Slopes :=
  mkSlopes
    (rlit (1#2) * (sint (i+1)%Z (j+1)%Z + sint (i+1)%Z j - sint i (j+1)%Z - sint i j) / hx)
    (rlit (1#2) * (sint (i+1)%Z (j+1)%Z - sint (i+1)%Z j + sint i (j+1)%Z - sint i j) / hy)
    ((sint (i+1)%Z (j+1)%Z - sint (i+1)%Z j - sint i (j+1)%Z + sint i j) / (hx * hy)).

(** The four corner values implied by the slopes (lines 155-164). *)
Definition corner_values (s : Array4) (sl : Slopes) (hx hy : T) (i j : Z)
  : Array1D :=
  let sc4 := s i j + rlit (1#2) * (hx * sx sl + hy * sy sl) + rlit (1#4) * hx * hy * sxy sl in
  let sc3 := s i j + rlit (1#2) * (hx * sx sl - hy * sy sl) - rlit (1#4) * hx * hy * sxy sl in
  let sc2 := s i j - rlit (1#2) * (hx * sx sl - hy * sy sl) - rlit (1#4) * hx * hy * sxy sl in
  let sc1 := s i j - rlit (1#2) * (hx * sx sl + hy * sy sl) + rlit (1#4) * hx * hy * sxy sl in
  mkArray1D sc1 sc2 sc3 sc4.

(** Bounds from the four cell centres around each corner (lines 167-177). *)
Definition corner_smin (s : Array4) (i j : Z) : Array1D :=
  let smin4 := rmin4 (s i j) (s (i+1)%Z j) (s i (j+1)%Z) (s (i+1)%Z (j+1)%Z) in
  let smin3 := rmin4 (s i j) (s (i+1)%Z j) (s i (j-1)%Z) (s (i+1)%Z (j-1)%Z) in
  let smin2 := rmin4 (s i j) (s (i-1)%Z j) (s i (j+1)%Z) (s (i-1)%Z (j+1)%Z) in
  let smin1 := rmin4 (s i j) (s (i-1)%Z j) (s i (j-1)%Z) (s (i-1)%Z (j-1)%Z) in
  mkArray1D smin1 smin2 smin3 smin4.

Definition corner_smax (s : Array4) (i j : Z) : Array1D :=
  let smax4 := rmax4 (s i j) (s (i+1)%Z j) (s i (j+1)%Z) (s (i+1)%Z (j+1)%Z) in
  let smax3 := rmax4 (s i j) (s (i+1)%Z j) (s i (j-1)%Z) (s (i+1)%Z (j-1)%Z) in
  let smax2 := rmax4 (s i j) (s (i-1)%Z j) (s i (j+1)%Z) (s (i-1)%Z (j+1)%Z) in
  let smax1 := rmax4 (s i j) (s (i-1)%Z j) (s i (j-1)%Z) (s (i-1)%Z (j-1)%Z) in
  mkArray1D smax1 smax2 smax3 smax4.

(** The loop of lines 179-181. *)
Definition clamp_corners (sc smin smax : Array1D) : Array1D :=
  fold_left
    (fun sc mm => set sc mm (rmax (rmin (get sc mm) (get smax mm)) (get smin mm)))
    [1; 2; 3; 4]%Z sc.

(** The variables a limiter sweep updates corner by corner. *)
Record SweepState : Type :=
  mkSweepState { sc_of : Array1D; sumdif_of : T; kdp_of : T }.

(** Lines 185-187: the residual of a sweep and its sign. *)
Definition sweep_sumdif (sij : T) (sc : Array1D) : T :=
  let sumloc := rlit (1#4) * (get sc 4 + get sc 3 + get sc 2 + get sc 1) in
  (sumloc - sij) * rlit 4.

Definition sweep_sgndif (sij : T) (sc : Array1D) : T :=
  rcopysign (rlit 1) (sweep_sumdif sij sc).

(** Lines 189-191. *)
Definition sweep_diff (sij sgndif : T) (sc : Array1D) : Array1D :=
  mkArray1D ((get sc 1 - sij) * sgndif) ((get sc 2 - sij) * sgndif)
            ((get sc 3 - sij) * sgndif) ((get sc 4 - sij) * sgndif).

(** Lines 193-199. *)
Definition sweep_kdp (diff : Array1D) : T :=
  fold_left
    (fun kdp mm => if get diff mm >? eps then kdp + rlit 1 else kdp)
    [1; 2; 3; 4]%Z (rlit 0).

(** The pieces of the loop body of lines 201-224, for corner [mm]: the
    divisor (202-206), the proposed reduction (208-213) and its upper bound
    (215-219). *)
Definition corner_div (kdp : T) : T :=
  if kdp <? rlit 1 then rlit 1 else kdp.

Definition corner_redfac (diff : Array1D) (sgndif sumdif kdp : T) (mm : Z) : T :=
  if get diff mm >? eps then sumdif * sgndif / corner_div kdp else rlit 0.

Definition corner_redmax (smin smax sc : Array1D) (sgndif : T) (mm : Z) : T :=
  if sgndif >? rlit 0
  then get sc mm - get smin mm
  else get smax mm - get sc mm.

(** The body of the loop of lines 201-224. *)
Definition corner_update (smin smax diff : Array1D) (sgndif : T)
  (st : SweepState) (mm : Z) : SweepState :=
  let sc := sc_of st in
  let sumdif := sumdif_of st in
  let kdp := kdp_of st in
  let redfac := corner_redfac diff sgndif sumdif kdp mm in
  let kdp := if get diff mm >? eps then kdp - rlit 1 else kdp in
  let redmax := corner_redmax smin smax sc sgndif mm in
  let redfac := rmin redfac redmax in
  mkSweepState (set sc mm (get sc mm - redfac * sgndif))
               (sumdif - redfac * sgndif) kdp.

(** The state a sweep starts its corner loop with, and the sweep (the body
    of the loop of lines 184-225). *)
Definition sweep_init (sij : T) (sc : Array1D) : SweepState :=
  let sumdif := sweep_sumdif sij sc in
  let sgndif := sweep_sgndif sij sc in
  mkSweepState sc sumdif (sweep_kdp (sweep_diff sij sgndif sc)).

Definition sweep_state (sij : T) (smin smax sc : Array1D) (mms : list Z)
  : SweepState :=
  let sgndif := sweep_sgndif sij sc in
  let diff := sweep_diff sij sgndif sc in
  fold_left (corner_update smin smax diff sgndif) mms (sweep_init sij sc).

Definition limiter_sweep (sij : T) (smin smax sc : Array1D) : Array1D :=
  sc_of (sweep_state sij smin smax sc [1; 2; 3; 4]%Z).

(** [sweeps n]: the corner values after the first [n] passes of the
    iterative loop; the source runs [ll = 1, 2, 3]. *)
Fixpoint sweeps (n : nat) (sij : T) (smin smax sc : Array1D) : Array1D :=
  match n with
  | O => sc
  | S n => limiter_sweep sij smin smax (sweeps n sij smin smax sc)
  end.

(** Final slopes from the corner values (lines 229-233). *)
Definition final_slopes (sc : Array1D) (hx hy : T) : Slopes :=
  mkSlopes
    (rlit (1#2) * (get sc 4 + get sc 3 - get sc 1 - get sc 2) / hx)
    (rlit (1#2) * (get sc 4 + get sc 2 - get sc 1 - get sc 3) / hy)
    ((get sc 1 + get sc 4 - get sc 2 - get sc 3) / (hx * hy)).

(** [constexpr bool limit_slopes = true] *)
Definition limit_slopes : bool := true.

(** The corner values of cell [(i,j)] after the clamp and [n] sweeps. *)
Definition limited_corners (n : nat) (s sint : Array4) (hx hy : T) (i j : Z)
  : Array1D :=
  let sl := unlimited_slopes sint hx hy i j in
  let sc := clamp_corners (corner_values s sl hx hy i j)
                          (corner_smin s i j) (corner_smax s i j) in
  sweeps n (s i j) (corner_smin s i j) (corner_smax s i j) sc.

(** The body of the second [ParallelFor] of [ComputeSlopes]. *)
Definition slope_kernel (s sint : Array4) (hx hy : T) (i j : Z) : Slopes :=
  let sl := unlimited_slopes sint hx hy i j in
  if limit_slopes
  then final_slopes (limited_corners 3 s sint hx hy i j) hx hy
  else sl.

(** *** Edge states on x-faces (lines 296-407) *)

(** The upwind test on the normal velocity (lines 310-316, repeated at
    350-356 and 390-396): the donor column and the sign of the trace. *)
Definition x_donor (uadv : Array4) (i j : Z) : Z * T :=
  if uadv i j >? rlit 0 then ((i-1)%Z, rlit 1) else (i, rlit (-1)).

(** The polynomial both Gamma integrals of an x-face evaluate. *)
Definition x_gamma (s : Array4) (slope : Array4n) (iup jup : Z)
  (hxs hys u1 u2 vv dt : T) : T :=
  s iup jup +
  (hxs * rlit (1#2) - (u1 + u2) * dt / rlit 3) * slope iup jup 0%Z +
  (hys * rlit (1#2) - vv * dt / rlit 3) * slope iup jup 1%Z +
  (rlit 3 * hxs * hys - rlit 2 * (u1 + u2) * dt * hys - rlit 2 * vv * hxs * dt +
   vv * (rlit 2 * u2 + u1) * dt * dt) * slope iup jup 2%Z / rlit 12.

(** Gamma plus for flux F (lines 310-342). *)
Definition x_gamp (s : Array4) (slope : Array4n) (uadv vadv : Array4)
  (hx hy dt : T) (i j : Z) : T :=
  let '(iup, isign) := x_donor uadv i j in
  let vtrans := vadv iup (j+1)%Z in
  let u1 := uadv i j in
  let '(jup, jsign, u2) :=
    if vtrans >? rlit 0
    then (j, rlit 1, uadv i j)
    else ((j+1)%Z, rlit (-1),
          if uadv i j * uadv i (j+1)%Z >? rlit 0 then uadv i (j+1)%Z else rlit 0) in
  let vv := vadv iup (j+1)%Z in
  let hxs := hx * isign in
  let hys := hy * jsign in
  x_gamma s slope iup jup hxs hys u1 u2 vv dt.

(** Gamma minus for flux F (lines 350-382). *)
Definition x_gamm (s : Array4) (slope : Array4n) (uadv vadv : Array4)
  (hx hy dt : T) (i j : Z) : T :=
  let '(iup, isign) := x_donor uadv i j in
  let vtrans := vadv iup j in
  let u1 := uadv i j in
  let '(jup, jsign, u2) :=
    if vtrans >? rlit 0
    then ((j-1)%Z, rlit 1,
          if uadv i j * uadv i (j-1)%Z >? rlit 0 then uadv i (j-1)%Z else rlit 0)
    else (j, rlit (-1), uadv i j) in
  let vv := vadv iup j in
  let hxs := hx * isign in
  let hys := hy * jsign in
  x_gamma s slope iup jup hxs hys u1 u2 vv dt.

(** The ingredients of [siphj] (lines 398-404), then [siphj] itself. *)
Definition x_stem (s : Array4) (slope : Array4n) (uadv : Array4)
  (hx dt : T) (i j : Z) : T :=
  let '(iup, isign) := x_donor uadv i j in
  s iup j + (isign * hx - uadv i j * dt) * rlit (1#2) * slope iup j 0%Z.

Definition x_vdif (s : Array4) (slope : Array4n) (uadv vadv : Array4)
  (hx hy dt : T) (i j : Z) : T :=
  let gamp := x_gamp s slope uadv vadv hx hy dt i j in
  let gamm := x_gamm s slope uadv vadv hx hy dt i j in
  let '(iup, isign) := x_donor uadv i j in
  rlit (1#2) * dt * (vadv iup (j+1)%Z * gamp - vadv iup j * gamm) / hy.

Definition x_vaddif (s : Array4) (slope : Array4n) (uadv : Array4)
  (hx dt : T) (i j : Z) : T :=
  let stem := x_stem s slope uadv hx dt i j in
  let '(iup, isign) := x_donor uadv i j in
  stem * rlit (1#2) * dt * (uadv (iup+1)%Z j - uadv iup j) / hx.

Definition x_divu (uadv vadv : Array4) (hx hy : T) (i j : Z) : T :=
  let '(iup, isign) := x_donor uadv i j in
  (uadv (iup+1)%Z j - uadv iup j) / hx + (vadv iup (j+1)%Z - vadv iup j) / hy.

Definition x_edge_kernel (s : Array4) (slope : Array4n)
  (uadv vadv force : Array4) (hx hy dt : T) (i j : Z) : T :=
  let '(iup, isign) := x_donor uadv i j in
  let vdif := x_vdif s slope uadv vadv hx hy dt i j in
  let stem := x_stem s slope uadv hx dt i j in
  let vaddif := x_vaddif s slope uadv hx dt i j in
  let divu := x_divu uadv vadv hx hy i j in
  stem - vdif - vaddif + rlit (1#2) * dt * stem * divu
  + (dt / rlit 2) * force iup j.

(** *** Edge states on y-faces (lines 424-536) *)

Definition y_donor (vadv : Array4) (i j : Z) : Z * T :=
  if vadv i j >? rlit 0 then ((j-1)%Z, rlit 1) else (j, rlit (-1)).

Definition y_gamma (s : Array4) (slope : Array4n) (iup jup : Z)
  (hxs hys v1 v2 uu dt : T) : T :=
  s iup jup +
  (hys * rlit (1#2) - (v1 + v2) * dt / rlit 3) * slope iup jup 1%Z +
  (hxs * rlit (1#2) - uu * dt / rlit 3) * slope iup jup 0%Z +
  (rlit 3 * hxs * hys - rlit 2 * (v1 + v2) * dt * hxs - rlit 2 * uu * hys * dt +
   (rlit 2 * v2 + v1) * uu * dt * dt) * slope iup jup 2%Z / rlit 12.

(** Gamma plus for flux G (lines 437-470). *)
Definition y_gamp (s : Array4) (slope : Array4n) (uadv vadv : Array4)
  (hx hy dt : T) (i j : Z) : T :=
  let '(jup, jsign) := y_donor vadv i j in
  let vtrans := uadv (i+1)%Z jup in
  let v1 := vadv i j in
  let '(iup, isign, v2) :=
    if vtrans >? rlit 0
    then (i, rlit 1, vadv i j)
    else ((i+1)%Z, rlit (-1),
          if vadv i j * vadv (i+1)%Z j >? rlit 0 then vadv (i+1)%Z j else rlit 0) in
  let uu := uadv (i+1)%Z jup in
  let hxs := hx * isign in
  let hys := hy * jsign in
  y_gamma s slope iup jup hxs hys v1 v2 uu dt.

(** Gamma minus for flux G (lines 478-510). *)
Definition y_gamm (s : Array4) (slope : Array4n) (uadv vadv : Array4)
  (hx hy dt : T) (i j : Z) : T :=
  let '(jup, jsign) := y_donor vadv i j in
  let vtrans := uadv i jup in
  let v1 := vadv i j in
  let '(iup, isign, v2) :=
    if vtrans >? rlit 0
    then ((i-1)%Z, rlit 1,
          if vadv i j * vadv (i-1)%Z j >? rlit 0 then vadv (i-1)%Z j else rlit 0)
    else (i, rlit (-1), vadv i j) in
  let uu := uadv i jup in
  let hxs := hx * isign in
  let hys := hy * jsign in
  y_gamma s slope iup jup hxs hys v1 v2 uu dt.

(** [sijph] (lines 518-532). *)
Definition y_edge_kernel (s : Array4) (slope : Array4n)
  (uadv vadv force : Array4) (hx hy dt : T) (i j : Z) : T :=
  let gamp := y_gamp s slope uadv vadv hx hy dt i j in
  let gamm := y_gamm s slope uadv vadv hx hy dt i j in
  let '(jup, jsign) := y_donor vadv i j in
  let vdif := rlit (1#2) * dt * (uadv (i+1)%Z jup * gamp - uadv i jup * gamm) / hx in
  let stem := s i jup + (jsign * hy - vadv i j * dt) * rlit (1#2) * slope i jup 1%Z in
  let vaddif := stem * rlit (1#2) * dt * (vadv i (jup+1)%Z - vadv i jup) / hy in
  let divu := (uadv (i+1)%Z jup - uadv i jup) / hx +
              (vadv i (jup+1)%Z - vadv i jup) / hy in
  stem - vdif - vaddif + rlit (1#2) * dt * stem * divu
  + (dt / rlit 2) * force i jup.

(** *** The three entry points *)

(** [geom.CellSizeArray()] *)
Record Geometry : Type := mkGeometry { CellSize_x : T; CellSize_y : T }.

(** [BDS::ComputeSlopes].  [sint0] and [slope0] stand for the contents of the
    scratch [sint_mf] and of [slope_mf] before the call; the corner loop runs
    on the nodal box grown by one, the slope loop on the cell box grown by
    one. *)
Definition ComputeSlopes_sint (s_mf : MultiFab) (state_comp : Z)
  (sint0 : Array4) : Array4 :=
  let bx := grow (convert_nodal (boxArray s_mf)) 1 in
  ParallelFor bx (sint_kernel (array s_mf state_comp)) sint0.

Definition ComputeSlopes (s_mf : MultiFab) (geom : Geometry)
  (slope_mf : MultiFab) (state_comp : Z) (sint0 : Array4) : MultiFab :=
  let hx := CellSize_x geom in
  let hy := CellSize_y geom in
  let s := array s_mf state_comp in
  let sint := ComputeSlopes_sint s_mf state_comp sint0 in
  let bx := grow (boxArray s_mf) 1 in
  mkMultiFab (boxArray slope_mf)
    (ParallelFor_n bx (fun i j n => slope_comp (slope_kernel s sint hx hy i j) n)
                   (fab slope_mf)).

(** [BDS::ComputeConc]: the x-edges on the box of [umac], the y-edges on the
    box of [vmac]. *)
Definition ComputeConc (s_mf : MultiFab) (state_comp : Z) (geom : Geometry)
  (xedge yedge : MultiFab) (edge_comp : Z) (slope_mf umac vmac fq : MultiFab)
  (fq_comp : Z) (dt : T) : MultiFab * MultiFab :=
  let hx := CellSize_x geom in
  let hy := CellSize_y geom in
  let s := array s_mf state_comp in
  let slope := fab slope_mf in
  let uadv := array umac 0 in
  let vadv := array vmac 0 in
  let force := array fq fq_comp in
  let siphj :=
    ParallelFor (boxArray umac)
      (x_edge_kernel s slope uadv vadv force hx hy dt) (array xedge edge_comp) in
  let sijph :=
    ParallelFor (boxArray vmac)
      (y_edge_kernel s slope uadv vadv force hx hy dt) (array yedge edge_comp) in
  (write_comp xedge edge_comp siphj, write_comp yedge edge_comp sijph).

(** [amrex::Abort] ends the program with a message; a call that returns
    hands back the two edge MultiFabs. *)
Inductive Outcome (A : Type) : Type :=
| Abort (msg : string)
| Return (a : A).

(** [BDS::ComputeEdgeState].  [slope0] and [sint0] are the contents of the
    fresh scratch MultiFabs. *)
Definition ComputeEdgeState (s_mf : MultiFab) (state_comp : Z)
  (geom : Geometry) (xedge yedge : MultiFab) (edge_comp : Z)
  (umac vmac fq : MultiFab) (fq_comp : Z) (is_conservative : Z) (dt : T)
  (slope0 : Array4n) (sint0 : Array4) : Outcome (MultiFab * MultiFab) :=
  if (is_conservative =? 0)%Z
  then Abort _ "For 2D, BDS algorithm currently only supports conservative computations"
  else
    let slope_mf := mkMultiFab (boxArray s_mf) slope0 in
    let slope_mf := ComputeSlopes s_mf geom slope_mf state_comp sint0 in
    Return _ (ComputeConc s_mf state_comp geom xedge yedge edge_comp
                          slope_mf umac vmac fq fq_comp dt).

End Kernels.

Arguments Array4 T : clear implicits.
Arguments Array4n T : clear implicits.
Arguments MultiFab T : clear implicits.
Arguments Array1D T : clear implicits.
Arguments Slopes T : clear implicits.
Arguments SweepState T : clear implicits.
Arguments Geometry T : clear implicits.

(** ** The statements of the specification, over exact arithmetic *)

Module Spec.

Local Open Scope Q_scope.

(** Section 4.1: the corner value from the three neighbourhood sums. *)
Definition sum_corners (s : Z -> Z -> Q) (i j : Z) : Q :=
  s (i-2)%Z (j-2)%Z + s (i-2)%Z (j+1)%Z + s (i+1)%Z (j-2)%Z + s (i+1)%Z (j+1)%Z.

Definition sum_edges (s : Z -> Z -> Q) (i j : Z) : Q :=
  s (i-2)%Z (j-1)%Z + s (i-2)%Z j + s (i-1)%Z (j-2)%Z + s i (j-2)%Z
  + s (i-1)%Z (j+1)%Z + s i (j+1)%Z + s (i+1)%Z (j-1)%Z + s (i+1)%Z j.

Definition sum_nears (s : Z -> Z -> Q) (i j : Z) : Q :=
  s (i-1)%Z (j-1)%Z + s i (j-1)%Z + s (i-1)%Z j + s i j.

Definition sint (s : Z -> Z -> Q) (i j : Z) : Q :=
  (sum_corners s i j - 7 * sum_edges s i j + 49 * sum_nears s i j) / 144.

(** Section 4.3: donor selection on an x-face, by the strict upwind test. *)
Definition iup (u_face : Z -> Z -> Q) (i j : Z) : Z :=
  if Qltb 0 (u_face i j) then (i - 1)%Z else i.

Definition isign (u_face : Z -> Z -> Q) (i j : Z) : Q :=
  if Qltb 0 (u_face i j) then 1 else -1.

(** Section 4.3, Gamma integrals, steps 2 and 3 for [gamp] on an x-face. *)
Definition gamp_jup (u_face v_face : Z -> Z -> Q) (i j : Z) : Z :=
  if Qltb 0 (v_face (iup u_face i j) (j+1)%Z) then j else (j + 1)%Z.

Definition gamp_jsign (u_face v_face : Z -> Z -> Q) (i j : Z) : Q :=
  if Qltb 0 (v_face (iup u_face i j) (j+1)%Z) then 1 else -1.

Definition gamp_u2 (u_face v_face : Z -> Z -> Q) (i j : Z) : Q :=
  if Qltb 0 (v_face (iup u_face i j) (j+1)%Z) then u_face i j
  else if Qltb 0 (u_face i j * u_face i (j+1)%Z) then u_face i (j+1)%Z
  else 0.

Definition gamp (s sx sy sxy u_face v_face : Z -> Z -> Q) (hx hy dt : Q)
  (i j : Z) : Q :=
  let iu := iup u_face i j in
  let ju := gamp_jup u_face v_face i j in
  let u1 := u_face i j in
  let u2 := gamp_u2 u_face v_face i j in
  let vv := v_face iu (j+1)%Z in
  let hxs := hx * isign u_face i j in
  let hys := hy * gamp_jsign u_face v_face i j in
  s iu ju
  + (hxs / 2 - (u1 + u2) * dt / 3) * sx iu ju
  + (hys / 2 - vv * dt / 3) * sy iu ju
  + (3 * hxs * hys - 2 * (u1 + u2) * dt * hys - 2 * vv * hxs * dt
     + vv * (2 * u2 + u1) * dt * dt) * sxy iu ju / 12.

(** Section 4.3: the ingredients of the edge state on an x-face. *)
Definition stem (s sx u_face : Z -> Z -> Q) (hx dt : Q) (i j : Z) : Q :=
  let iu := iup u_face i j in
  s iu j + (isign u_face i j * hx - u_face i j * dt) * (1#2) * sx iu j.

Definition vdif (u_face v_face : Z -> Z -> Q) (gamp gamm hy dt : Q) (i j : Z) : Q :=
  let iu := iup u_face i j in
  (1#2) * dt * (v_face iu (j+1)%Z * gamp - v_face iu j * gamm) / hy.

Definition vaddif (u_face : Z -> Z -> Q) (stem hx dt : Q) (i j : Z) : Q :=
  let iu := iup u_face i j in
  stem * (1#2) * dt * (u_face (iu+1)%Z j - u_face iu j) / hx.

Definition divu (u_face v_face : Z -> Z -> Q) (hx hy : Q) (i j : Z) : Q :=
  let iu := iup u_face i j in
  (u_face (iu+1)%Z j - u_face iu j) / hx
  + (v_face iu (j+1)%Z - v_face iu j) / hy.

Definition edge (stem vdif vaddif divu force_donor dt : Q) : Q :=
  stem - vdif - vaddif + (1#2) * dt * stem * divu + (1#2) * dt * force_donor.

(** The slope arrays [sx], [sy], [sxy] of the specification are the
    components 0, 1, 2 of [slope]. *)
Definition comp (slope : Array4n Q) (n : Z) : Z -> Z -> Q :=
  fun i j => slope i j n.

(** The mean of the four corner values and the envelope of section 3. *)
Definition mean (sc : Array1D Q) : Q :=
  (a1 sc + a2 sc + a3 sc + a4 sc) / 4.

Definition in_envelope (smin smax sc : Array1D Q) : Prop :=
  (a1 smin <= a1 sc <= a1 smax) /\ (a2 smin <= a2 sc <= a2 smax) /\
  (a3 smin <= a3 sc <= a3 smax) /\ (a4 smin <= a4 sc <= a4 smax).

(** The residual of section 4.2, [4 (mean(sc) - s(i,j))], as the sum it
    stands for. *)
Definition defect (sij : Q) (sc : Array1D Q) : Q :=
  a1 sc + a2 sc + a3 sc + a4 sc - 4 * sij.

(** The bookkeeping identity of a sweep: the carried residual is the
    defect of the current corner values. *)
Definition carries_defect (sij : Q) (st : SweepState Q) : Prop :=
  sumdif_of st == defect sij (sc_of st).

End Spec.

(** ** Measures of the limiter's progress *)

Module Progress.

Local Open Scope Q_scope.

(** Every bound of a corner comes from a quartet that holds [s(i,j)]. *)
Definition bounds_contain (sij : Q) (smin smax : Array1D Q) : Prop :=
  (a1 smin <= sij <= a1 smax) /\ (a2 smin <= sij <= a2 smax) /\
  (a3 smin <= sij <= a3 smax) /\ (a4 smin <= sij <= a4 smax).

(** Progress of the limiter.  A corner takes part in a sweep of sign
    [sgndif] when its deviation [(sc - s(i,j)) sgndif] exceeds [eps] (the
    test of lines 196 and 208); [n_active] counts those corners. *)
Definition active (sgndif sij c : Q) : bool := Qltb eps ((c - sij) * sgndif).

Definition b2n (b : bool) : nat := if b then 1 else 0.
Definition b2q (b : bool) : Q := if b then 1 else 0.

Definition n_active (sgndif sij : Q) (sc : Array1D Q) : nat :=
  b2n (active sgndif sij (a1 sc)) + b2n (active sgndif sij (a2 sc))
  + b2n (active sgndif sij (a3 sc)) + b2n (active sgndif sij (a4 sc)).

(** The bound a corner is pushed towards: [smin] when the residual is
    positive, [smax] when it is negative (lines 215-219). *)
Definition target (sgndif : Q) (smin smax : Array1D Q) : Array1D Q :=
  if Qltb 0 sgndif then smin else smax.

(** [settled n]: the mean is exact, or at most [n] corners would take part
    in the next sweep. *)
Definition settled (n : nat) (sij : Q) (sc : Array1D Q) : Prop :=
  Spec.defect sij sc == 0 \/
  (n_active (sweep_sgndif sij sc) sij sc <= n)%nat.

End Progress.

(** ** Concrete grids and fields *)

Module Inputs.

Section Fields.

Context {T : Type} {RA : RealArith T}.

Definition const_field (c : T) : Array4 T := fun _ _ => c.

(** 144 in the cells [(-2,-2)] and [(-1,0)], zero elsewhere. *)
Definition two_spikes : Array4 T :=
  fun i j =>
    if ((i =? -2) && (j =? -2)) || ((i =? -1) && (j =? 0))
    then rlit 144 else rlit 0.

(** 144 in the cell [(1,1)], zero elsewhere. *)
Definition delta : Array4 T :=
  fun i j => if (i =? 1) && (j =? 1) then rlit 144 else rlit 0.

(** A MultiFab on [bx] whose components all hold [a]. *)
Definition mf_of (bx : Box) (a : Array4 T) : MultiFab T :=
  mkMultiFab bx (fun i j _ => a i j).

Definition unit_geom : Geometry T := mkGeometry (rlit 1) (rlit 1).

End Fields.

(** A 4 x 4 block of cells and a block around the origin. *)
Definition cells : Box := mkBox 0 0 3 3.
Definition origin_cells : Box := mkBox (-1) (-1) 1 1.

(** Two cells holding [-8] units of the smallest subnormal of binary64,
    [+0] elsewhere. *)
Definition tiny : Array4 B64.t :=
  fun i j =>
    if ((i =? -2) && (j =? -1)) || ((i =? -1) && (j =? -1))
    then S754_finite true 8 (-1074) else B64.pzero.

End Inputs.

(** ** Transposed problems and linear states *)

Module Mirror.

Section Transposition.

Context {T : Type}.

(** The same field with the roles of the two indices exchanged. *)
Definition transpose (a : Array4 T) : Array4 T := fun i j => a j i.

(** Slopes of the transposed problem: [sx] and [sy] change places. *)
Definition swap_xy (n : Z) : Z :=
  match n with
  | 0%Z => 1%Z
  | 1%Z => 0%Z
  | _ => n
  end.

Definition transpose_slope (slope : Array4n T) : Array4n T :=
  fun i j n => slope j i (swap_xy n).

End Transposition.

End Mirror.

Module Linear.

Local Open Scope Q_scope.

(** The state [a x + b y + c] sampled at the cell centres
    [x = hx i], [y = hy j]. *)
Definition field (a b c hx hy : Q) : Array4 Q :=
  fun i j => a * (hx * inject_Z i) + b * (hy * inject_Z j) + c.

(** The same function at the lower-left corner of cell [(i,j)], on the
    x-face [(i,j)] (the low x side of the cell) and on the y-face [(i,j)]
    (the low y side). *)
Definition at_corner (a b c hx hy : Q) (i j : Z) : Q :=
  a * (hx * (inject_Z i - (1#2))) + b * (hy * (inject_Z j - (1#2))) + c.

Definition at_xface (a b c hx hy : Q) (i j : Z) : Q :=
  a * (hx * (inject_Z i - (1#2))) + b * (hy * inject_Z j) + c.

Definition at_yface (a b c hx hy : Q) (i j : Z) : Q :=
  a * (hx * inject_Z i) + b * (hy * (inject_Z j - (1#2))) + c.

End Linear.

(** ** Transverse-term boundary conditions of the Godunov scheme
       ([src/Godunov/hydro_godunov_K.H]) *)

Module GodunovTransBC.

(** The codes of [amrex::BCType] that the routines test, and the indices of
    the velocity components ([XVEL], [YVEL], [ZVEL] of [hydro_constants.H]).
    Their values are declared outside the files at hand; the routines are
    modelled for any values. *)
Record BCType : Type := mkBCType {
  ext_dir : Z;
  foextrap : Z;
  hoextrap : Z;
  reflect_even : Z;
  reflect_odd : Z
}.

(** The values AMReX gives them ([AMReX_BC_TYPES.H]), for running the
    routines. *)
Definition amrex_BCType : BCType := mkBCType 3 2 4 1 (-1).
Definition XVEL : Z := 0.
Definition YVEL : Z := 1.
Definition ZVEL : Z := 2.

Section Routines.

Context {T : Type} {RA : RealArith T}.

Variable bc : BCType.

(** [Array4<const Real>] with its four indices [s(i,j,k,n)]. *)
Definition Array4kn : Type := Z -> Z -> Z -> Z -> T.

(** [SetTransTermXBCs] (lines 26-75).  The source updates the references
    [lo] and [hi] in place; the model returns the pair [(lo, hi)] the call
    leaves.  [xvel] stands for [XVEL]. *)
Definition SetTransTermXBCs (xvel : Z) (i j k n : Z) (s : Array4kn)
  (lo hi : T) (bclo bchi domlo domhi : Z) (is_velocity : bool) : T * T :=
  if (i <=? domlo)%Z then
    if (bclo =? ext_dir bc)%Z then
      let lo := s (domlo - 1)%Z j k n in
      let hi := if (n =? xvel)%Z && is_velocity then lo else hi in
      (lo, hi)
    else if (bclo =? foextrap bc)%Z || (bclo =? hoextrap bc)%Z
            || (bclo =? reflect_even bc)%Z then
      let lo := hi in
      (lo, hi)
    else if (bclo =? reflect_odd bc)%Z then
      (rlit 0, rlit 0)
    else (lo, hi)
  else if (domhi <? i)%Z then
    if (bchi =? ext_dir bc)%Z then
      let hi := s (domhi + 1)%Z j k n in
      let lo := if (n =? xvel)%Z && is_velocity then hi else lo in
      (lo, hi)
    else if (bchi =? foextrap bc)%Z || (bchi =? hoextrap bc)%Z
            || (bchi =? reflect_even bc)%Z then
      let hi := lo in
      (lo, hi)
    else if (bchi =? reflect_odd bc)%Z then
      (rlit 0, rlit 0)
    else (lo, hi)
  else (lo, hi).

(** [SetTransTermYBCs] (lines 78-127). *)
Definition SetTransTermYBCs (yvel : Z) (i j k n : Z) (s : Array4kn)
  (lo hi : T) (bclo bchi domlo domhi : Z) (is_velocity : bool) : T * T :=
  if (j <=? domlo)%Z then
    if (bclo =? ext_dir bc)%Z then
      let lo := s i (domlo - 1)%Z k n in
      let hi := if (n =? yvel)%Z && is_velocity then lo else hi in
      (lo, hi)
    else if (bclo =? foextrap bc)%Z || (bclo =? hoextrap bc)%Z
            || (bclo =? reflect_even bc)%Z then
      let lo := hi in
      (lo, hi)
    else if (bclo =? reflect_odd bc)%Z then
      (rlit 0, rlit 0)
    else (lo, hi)
  else if (domhi <? j)%Z then
    if (bchi =? ext_dir bc)%Z then
      let hi := s i (domhi + 1)%Z k n in
      let lo := if (n =? yvel)%Z && is_velocity then hi else lo in
      (lo, hi)
    else if (bchi =? foextrap bc)%Z || (bchi =? hoextrap bc)%Z
            || (bchi =? reflect_even bc)%Z then
      let hi := lo in
      (lo, hi)
    else if (bchi =? reflect_odd bc)%Z then
      (rlit 0, rlit 0)
    else (lo, hi)
  else (lo, hi).

(** [SetTransTermZBCs] (lines 131-180), compiled when
    [AMREX_SPACEDIM == 3]. *)
Definition SetTransTermZBCs (zvel : Z) (i j k n : Z) (s : Array4kn)
  (lo hi : T) (bclo bchi domlo domhi : Z) (is_velocity : bool) : T * T :=
  if (k <=? domlo)%Z then
    if (bclo =? ext_dir bc)%Z then
      let lo := s i j (domlo - 1)%Z n in
      let hi := if (n =? zvel)%Z && is_velocity then lo else hi in
      (lo, hi)
    else if (bclo =? foextrap bc)%Z || (bclo =? hoextrap bc)%Z
            || (bclo =? reflect_even bc)%Z then
      let lo := hi in
      (lo, hi)
    else if (bclo =? reflect_odd bc)%Z then
      (rlit 0, rlit 0)
    else (lo, hi)
  else if (domhi <? k)%Z then
    if (bchi =? ext_dir bc)%Z then
      let hi := s i j (domhi + 1)%Z n in
      let lo := if (n =? zvel)%Z && is_velocity then hi else lo in
      (lo, hi)
    else if (bchi =? foextrap bc)%Z || (bchi =? hoextrap bc)%Z
            || (bchi =? reflect_even bc)%Z then
      let hi := lo in
      (lo, hi)
    else if (bchi =? reflect_odd bc)%Z then
      (rlit 0, rlit 0)
    else (lo, hi)
  else (lo, hi).

End Routines.

Arguments Array4kn T : clear implicits.

End GodunovTransBC.

(** * Properties *)

(** ** Order and sign on the exact instance *)

Section QOrder.

Local Open Scope Q_scope.

Lemma Qltb_lt (a b : Q) : Qltb a b = true <-> a < b.
Proof.
  unfold Qltb. rewrite Qlt_alt. destruct (a ?= b); split; congruence.
Qed.

Lemma Qltb_ge (a b : Q) : Qltb a b = false <-> b <= a.
Proof.
  unfold Qltb. rewrite Qle_alt, <- (Qcompare_antisym a b).
  destruct (a ?= b); cbn; split; congruence.
Qed.

End QOrder.

Ltac qred :=
  cbn [radd rsub rmul rdiv rltb rlit rcopysign Q_RealArith] in *.

Ltac qltb_case a b :=
  let E := fresh "E" in
  destruct (Qltb a b) eqn:E; [apply Qltb_lt in E | apply Qltb_ge in E].

Ltac qcases :=
  repeat match goal with
  | |- context [Qltb ?a ?b] => qltb_case a b
  end.

(** Case analysis that follows the control flow: split on the first test,
    reduce the branch taken, go on. *)
Ltac qsplit :=
  repeat (match goal with
          | |- context [Qltb ?a ?b] => qltb_case a b
          end; cbv beta iota zeta).

(** ** The driver: boxes and the abort *)

Section Driver.

Context {T : Type} {RA : RealArith T}.

Lemma ParallelFor_inside (bx : Box) (f : Z -> Z -> T) (a : Array4 T) (i j : Z) :
  contains bx i j = true -> ParallelFor bx f a i j = f i j.
Proof. intros H. unfold ParallelFor. now rewrite H. Qed.

Lemma ParallelFor_n_inside (bx : Box) (f : Z -> Z -> Z -> T) (a : Array4n T)
  (i j n : Z) :
  contains bx i j = true -> ParallelFor_n bx f a i j n = f i j n.
Proof. intros H. unfold ParallelFor_n. now rewrite H. Qed.

Lemma contains_spec (bx : Box) (i j : Z) :
  contains bx i j = true <->
  (lo_i bx <= i <= hi_i bx /\ lo_j bx <= j <= hi_j bx)%Z.
Proof.
  unfold contains. rewrite !Bool.andb_true_iff, !Z.leb_le. tauto.
Qed.

(** C6.  [ComputeEdgeState] aborts, with the message of line 54, exactly
    when [is_conservative] is zero; for any other value it returns what
    [ComputeConc] computes from the slopes of [ComputeSlopes]. *)
Theorem ComputeEdgeState_abort_iff
  (s_mf : MultiFab T) (state_comp : Z) (geom : Geometry T)
  (xedge yedge : MultiFab T) (edge_comp : Z) (umac vmac fq : MultiFab T)
  (fq_comp is_conservative : Z) (dt : T) (slope0 : Array4n T) (sint0 : Array4 T) :
  let r := ComputeEdgeState s_mf state_comp geom xedge yedge edge_comp
             umac vmac fq fq_comp is_conservative dt slope0 sint0 in
  (r = Abort _ "For 2D, BDS algorithm currently only supports conservative computations"
   <-> is_conservative = 0%Z) /\
  ((exists msg, r = Abort _ msg) <-> is_conservative = 0%Z) /\
  (is_conservative <> 0%Z <->
   r = Return _
         (ComputeConc s_mf state_comp geom xedge yedge edge_comp
            (ComputeSlopes s_mf geom (mkMultiFab (boxArray s_mf) slope0)
               state_comp sint0)
            umac vmac fq fq_comp dt)).
Proof.
  cbv zeta. unfold ComputeEdgeState.
  destruct (Z.eqb_spec is_conservative 0) as [E | E].
  - repeat split; try easy; eauto.
  - repeat split; try easy. intros [msg H]; discriminate.
Qed.

End Driver.

(** ** Corner interpolation *)

Section Corners.

Local Open Scope Q_scope.

Lemma sint_kernel_spec (s : Z -> Z -> Q) (i j : Z) :
  sint_kernel s i j == Spec.sint s i j.
Proof.
  unfold sint_kernel, Spec.sint, Spec.sum_corners, Spec.sum_edges,
    Spec.sum_nears.
  qred. field.
Qed.

(** C5.  On every corner of the working set of the first loop of
    [ComputeSlopes] (the nodal box grown by one), the value written to
    [sint] is [(corners - 7 edges + 49 nears) / 144] with the three sums of
    section 4.1. *)
Theorem sint_is_bicubic_stencil
  (s_mf : MultiFab Q) (state_comp : Z) (sint0 : Array4 Q) (i j : Z) :
  contains (grow (convert_nodal (boxArray s_mf)) 1) i j = true ->
  ComputeSlopes_sint s_mf state_comp sint0 i j
  == (Spec.sum_corners (array s_mf state_comp) i j
      - 7 * Spec.sum_edges (array s_mf state_comp) i j
      + 49 * Spec.sum_nears (array s_mf state_comp) i j) / 144.
Proof.
  intros Hin. unfold ComputeSlopes_sint.
  rewrite ParallelFor_inside by exact Hin.
  apply sint_kernel_spec.
Qed.

Lemma sint_is_bicubic_stencil_witness :
  contains (grow (convert_nodal (boxArray (Inputs.mf_of Inputs.cells Inputs.delta))) 1) 1%Z 1%Z = true /\
  ComputeSlopes_sint (Inputs.mf_of Inputs.cells Inputs.delta) 0%Z (fun _ _ => 0) 1%Z 1%Z
  == (Spec.sum_corners (array (Inputs.mf_of Inputs.cells Inputs.delta) 0%Z) 1%Z 1%Z
      - 7 * Spec.sum_edges (array (Inputs.mf_of Inputs.cells Inputs.delta) 0%Z) 1%Z 1%Z
      + 49 * Spec.sum_nears (array (Inputs.mf_of Inputs.cells Inputs.delta) 0%Z) 1%Z 1%Z) / 144.
Proof.
  split; [reflexivity | apply sint_is_bicubic_stencil; reflexivity].
Defined.

End Corners.

(** ** Edge states on x-faces: the formulas *)

Section XFaceFormulas.

Local Open Scope Q_scope.

Variables (s : Array4 Q) (slope : Array4n Q) (uadv vadv force : Array4 Q).
Variables (hx hy dt : Q).

(** C3.  On every x-face the Gamma-plus integral of the code is the one of
    section 4.3: donor by the strict test on [u_face(i,j)], transverse
    upwind on [v_face(iup,j+1)] selecting [jup], [jsign] and [u2], and the
    polynomial in [sx], [sy], [sxy] at [(iup,jup)]. *)
Theorem x_gamp_is_spec_gamp (i j : Z) :
  x_gamp s slope uadv vadv hx hy dt i j ==
  Spec.gamp s (Spec.comp slope 0) (Spec.comp slope 1) (Spec.comp slope 2)
    uadv vadv hx hy dt i j.
Proof.
  unfold x_gamp, x_donor, x_gamma, Spec.gamp, Spec.gamp_jup, Spec.gamp_jsign,
    Spec.gamp_u2, Spec.iup, Spec.isign, Spec.comp.
  qred. cbv beta iota zeta.
  qsplit; field.
Qed.

Lemma x_edge_kernel_spec (i j : Z) :
  x_edge_kernel s slope uadv vadv force hx hy dt i j ==
  Spec.edge
    (Spec.stem s (Spec.comp slope 0) uadv hx dt i j)
    (Spec.vdif uadv vadv (x_gamp s slope uadv vadv hx hy dt i j)
       (x_gamm s slope uadv vadv hx hy dt i j) hy dt i j)
    (Spec.vaddif uadv (Spec.stem s (Spec.comp slope 0) uadv hx dt i j) hx dt i j)
    (Spec.divu uadv vadv hx hy i j)
    (force (Spec.iup uadv i j) j) dt.
Proof.
  unfold x_edge_kernel, x_vdif, x_vaddif, x_stem, x_divu, x_donor, Spec.edge,
    Spec.stem, Spec.vdif, Spec.vaddif, Spec.divu, Spec.iup, Spec.isign,
    Spec.comp.
  generalize (x_gamp s slope uadv vadv hx hy dt i j)
             (x_gamm s slope uadv vadv hx hy dt i j).
  intros gamp gamm. qred. cbv beta iota zeta.
  qsplit; unfold Qdiv; generalize (/ hx) (/ hy); intros; field.
Qed.

End XFaceFormulas.

Section XFaceDriver.

Local Open Scope Q_scope.

Lemma array_write_comp {T : Type} (mf : MultiFab T) (comp : Z) (a : Array4 T)
  (i j : Z) :
  array (write_comp mf comp a) comp i j = a i j.
Proof. unfold array, write_comp; cbn. now rewrite Z.eqb_refl. Qed.

(** C4.  For every x-face of the box of [umac], a conservative call of
    [ComputeEdgeState] returns, and the value it writes to [xedge] is
    [stem - vdif - vaddif + dt/2 stem divu + dt/2 force(iup,j)] with the
    ingredients of section 4.3, the slopes being those of [ComputeSlopes]. *)
Theorem xedge_is_spec_edge
  (s_mf : MultiFab Q) (state_comp : Z) (geom : Geometry Q)
  (xedge yedge : MultiFab Q) (edge_comp : Z) (umac vmac fq : MultiFab Q)
  (fq_comp is_conservative : Z) (dt : Q) (slope0 : Array4n Q)
  (sint0 : Array4 Q) (i j : Z) :
  is_conservative <> 0%Z ->
  contains (boxArray umac) i j = true ->
  let s := array s_mf state_comp in
  let u_face := array umac 0 in
  let v_face := array vmac 0 in
  let force := array fq fq_comp in
  let hx := CellSize_x geom in
  let hy := CellSize_y geom in
  let slope :=
    fab (ComputeSlopes s_mf geom (mkMultiFab (boxArray s_mf) slope0)
           state_comp sint0) in
  let iup := Spec.iup u_face i j in
  let stem := Spec.stem s (Spec.comp slope 0) u_face hx dt i j in
  let gamp := x_gamp s slope u_face v_face hx hy dt i j in
  let gamm := x_gamm s slope u_face v_face hx hy dt i j in
  let vdif := Spec.vdif u_face v_face gamp gamm hy dt i j in
  let vaddif := Spec.vaddif u_face stem hx dt i j in
  let divu := Spec.divu u_face v_face hx hy i j in
  exists xe ye,
    ComputeEdgeState s_mf state_comp geom xedge yedge edge_comp umac vmac fq
      fq_comp is_conservative dt slope0 sint0 = Return _ (xe, ye) /\
    array xe edge_comp i j
    == stem - vdif - vaddif + (1#2) * dt * stem * divu
       + (1#2) * dt * force iup j.
Proof.
  intros Hc Hin. cbv zeta.
  unfold ComputeEdgeState. destruct (Z.eqb_spec is_conservative 0) as [E | _];
    [contradiction |].
  unfold ComputeConc. eexists; eexists; split; [reflexivity |].
  rewrite array_write_comp, ParallelFor_inside by exact Hin.
  rewrite x_edge_kernel_spec. reflexivity.
Qed.

Lemma xedge_is_spec_edge_witness :
  exists xe ye,
    ComputeEdgeState (Inputs.mf_of Inputs.cells Inputs.delta) 0%Z
      Inputs.unit_geom
      (Inputs.mf_of (xface_box Inputs.cells) (Inputs.const_field 0))
      (Inputs.mf_of (yface_box Inputs.cells) (Inputs.const_field 0)) 0%Z
      (Inputs.mf_of (xface_box Inputs.cells) (Inputs.const_field (1#2)))
      (Inputs.mf_of (yface_box Inputs.cells) (Inputs.const_field (-1#4)))
      (Inputs.mf_of Inputs.cells (Inputs.const_field 0)) 0%Z 1%Z (1#10)
      (fun _ _ _ => 0) (fun _ _ => 0) = Return _ (xe, ye) /\
    array xe 0%Z 2%Z 1%Z == 711 # 5.
Proof.
  destruct (xedge_is_spec_edge (Inputs.mf_of Inputs.cells Inputs.delta) 0%Z
      Inputs.unit_geom
      (Inputs.mf_of (xface_box Inputs.cells) (Inputs.const_field 0))
      (Inputs.mf_of (yface_box Inputs.cells) (Inputs.const_field 0)) 0%Z
      (Inputs.mf_of (xface_box Inputs.cells) (Inputs.const_field (1#2)))
      (Inputs.mf_of (yface_box Inputs.cells) (Inputs.const_field (-1#4)))
      (Inputs.mf_of Inputs.cells (Inputs.const_field 0)) 0%Z 1%Z (1#10)
      (fun _ _ _ => 0) (fun _ _ => 0) 2%Z 1%Z)
    as (xe & ye & Hr & Hv); [discriminate | reflexivity |].
  exists xe, ye. split; [exact Hr |].
  rewrite Hv. vm_compute. reflexivity.
Defined.

End XFaceDriver.


(** ** The limiter *)

Section LimiterArith.

Local Open Scope Q_scope.

Lemma eps_pos : 0 < @eps Q _.
Proof. reflexivity. Qed.

Lemma Qdiv_share (a d : Q) : 0 <= a -> 1 <= d -> 0 <= a / d <= a.
Proof.
  intros Ha Hd. split.
  - apply Qle_shift_div_l; lra.
  - apply Qle_shift_div_r; [lra | nra].
Qed.

Lemma Qdiv_one (a d : Q) : d == 1 -> a / d == a.
Proof. intros ->. field. Qed.

Lemma b2q_nonneg (b : bool) : 0 <= Progress.b2q b.
Proof. destruct b; cbn; lra. Qed.

Lemma get_set_same (a : Array1D Q) (mm : Z) (v : Q) :
  In mm [1; 2; 3; 4]%Z -> get (set a mm v) mm = v.
Proof. cbn; intros [<- | [<- | [<- | [<- | []]]]]; reflexivity. Qed.

Lemma get_set_other (a : Array1D Q) (mm k : Z) (v : Q) :
  In k [1; 2; 3; 4]%Z -> k <> mm -> get (set a mm v) k = get a k.
Proof.
  cbn; intros [<- | [<- | [<- | [<- | []]]]] Hne;
    destruct mm as [| [[|[]|]|[|[]|]|] |]; try reflexivity; congruence.
Qed.

(** Counting the corners that still take part. *)
Lemma b2n_le (b c : bool) :
  (c = true -> b = true) -> (Progress.b2n c <= Progress.b2n b)%nat.
Proof. destruct b, c; cbn; intros H; try lia; discriminate (H eq_refl). Qed.

Lemma count_le (b1 b2 b3 b4 c1 c2 c3 c4 : bool) :
  (c1 = true -> b1 = true) -> (c2 = true -> b2 = true) ->
  (c3 = true -> b3 = true) -> (c4 = true -> b4 = true) ->
  (Progress.b2n c1 + Progress.b2n c2 + Progress.b2n c3 + Progress.b2n c4
   <= Progress.b2n b1 + Progress.b2n b2 + Progress.b2n b3 + Progress.b2n b4)%nat.
Proof.
  intros H1 H2 H3 H4. apply b2n_le in H1, H2, H3, H4. lia.
Qed.

Lemma count_lt (b1 b2 b3 b4 c1 c2 c3 c4 : bool) :
  (c1 = true -> b1 = true) -> (c2 = true -> b2 = true) ->
  (c3 = true -> b3 = true) -> (c4 = true -> b4 = true) ->
  (b1 = true /\ c1 = false) \/ (b2 = true /\ c2 = false) \/
  (b3 = true /\ c3 = false) \/ (b4 = true /\ c4 = false) ->
  (S (Progress.b2n c1 + Progress.b2n c2 + Progress.b2n c3 + Progress.b2n c4)
   <= Progress.b2n b1 + Progress.b2n b2 + Progress.b2n b3 + Progress.b2n b4)%nat.
Proof.
  intros H1 H2 H3 H4 Hs. apply b2n_le in H1, H2, H3, H4.
  destruct Hs as [[-> ->] | [[-> ->] | [[-> ->] | [-> ->]]]]; cbn in *; lia.
Qed.

End LimiterArith.

(** Once the booleans of a sweep are decided, what each corner step
    promised under them is made available. *)
Ltac use_flags :=
  repeat match goal with
  | H : true = true -> _ |- _ => specialize (H eq_refl)
  | H : false = false -> _ |- _ => specialize (H eq_refl)
  | H : false = true -> _ |- _ => clear H
  | H : true = false -> _ |- _ => clear H
  | H : ?a == 0 -> _ |- _ =>
      first [ assert (a == 0) as HZ by lra; specialize (H HZ); clear HZ
            | clear H ]
  | H : true = true <-> _ |- _ => apply proj1 in H; specialize (H eq_refl)
  | H : false = true <-> _ |- _ =>
      let H' := fresh in
      assert (H' := fun p => Bool.diff_false_true (proj2 H p));
      apply Qnot_lt_le in H'; clear H
  end.

Section Sweep.

Local Open Scope Q_scope.

Variables (sij : Q) (smin smax : Array1D Q).

Lemma sweep_sumdif_defect (sc : Array1D Q) :
  sweep_sumdif sij sc == Spec.defect sij sc.
Proof.
  unfold sweep_sumdif, Spec.defect. qred.
  destruct sc as [c1 c2 c3 c4]; cbn [get a1 a2 a3 a4]. field.
Qed.

(** [sgndif] is the literal [1] or the literal [-1]. *)
Lemma sweep_sgndif_cases (sc : Array1D Q) :
  (0 <= Spec.defect sij sc /\ sweep_sgndif sij sc = 1) \/
  (Spec.defect sij sc < 0 /\ sweep_sgndif sij sc = -1).
Proof.
  unfold sweep_sgndif. qred. unfold Qcopysign.
  rewrite <- sweep_sumdif_defect.
  qltb_case (sweep_sumdif sij sc) 0; [right | left]; split;
    solve [assumption | reflexivity].
Qed.

Lemma sweep_kdp_count (d : Array1D Q) :
  sweep_kdp d ==
  Progress.b2q (Qltb eps (get d 1)) + (Progress.b2q (Qltb eps (get d 2)) +
    (Progress.b2q (Qltb eps (get d 3)) + (Progress.b2q (Qltb eps (get d 4)) + 0))).
Proof.
  unfold sweep_kdp. cbn [fold_left]. qred.
  destruct (Qltb eps (get d 1)), (Qltb eps (get d 2)),
    (Qltb eps (get d 3)), (Qltb eps (get d 4)); cbn [Progress.b2q]; ring.
Qed.

(** One corner of a sweep.  [rest] counts the corners after [mm] that take
    part.  The corner moves towards its target bound by the clamped
    [redfac], the residual shrinks by the same amount and keeps its sign;
    a corner that does not take part stays, and the last one that does
    either removes the residual or ends on its bound. *)
Lemma corner_update_step (sgndif : Q) (diff : Array1D Q) (st : SweepState Q)
  (mm : Z) (rest : Q) :
  sgndif = 1 \/ sgndif = -1 ->
  In mm [1; 2; 3; 4]%Z ->
  get diff mm == (get (sc_of st) mm - sij) * sgndif ->
  get smin mm <= get (sc_of st) mm <= get smax mm ->
  0 <= sumdif_of st * sgndif ->
  0 <= rest ->
  kdp_of st == Progress.b2q (Qltb eps (get diff mm)) + rest ->
  let st' := corner_update smin smax diff sgndif st mm in
  (forall k, In k [1; 2; 3; 4]%Z -> k <> mm ->
             get (sc_of st') k = get (sc_of st) k) /\
  get smin mm <= get (sc_of st') mm <= get smax mm /\
  0 <= (get (sc_of st) mm - get (sc_of st') mm) * sgndif /\
  sumdif_of st' == sumdif_of st - (get (sc_of st) mm - get (sc_of st') mm) /\
  0 <= sumdif_of st' * sgndif /\
  kdp_of st' == rest /\
  (Qltb eps (get diff mm) = false -> get (sc_of st') mm == get (sc_of st) mm) /\
  (Qltb eps (get diff mm) = true -> rest == 0 ->
   sumdif_of st' == 0 \/
   get (sc_of st') mm == get (Progress.target sgndif smin smax) mm).
Proof.
  intros Hsg Hmm Hdiff Henv Hsum Hrest Hkdp st'.
  split; [intros k Hk Hne; apply get_set_other; assumption |].
  subst st'. unfold corner_update. cbn [sc_of sumdif_of kdp_of].
  rewrite get_set_same by exact Hmm.
  unfold corner_redfac, corner_redmax, corner_div, rmin, Progress.target. qred.
  destruct Hsg as [-> | ->];
    [change (Qltb 0 1) with true | change (Qltb 0 (-1)) with false];
    cbv iota;
    (destruct (Qltb eps (get diff mm)) eqn:A; cbn [Progress.b2q] in Hkdp;
     [ assert (H1 : Qltb (kdp_of st) 1 = false) by (apply Qltb_ge; lra);
       rewrite H1;
       match goal with
       | |- context [?a / kdp_of st] =>
           assert (Hq : 0 <= a / kdp_of st <= a)
             by (apply Qdiv_share; lra);
           assert (Hq1 : rest == 0 -> a / kdp_of st == a)
             by (intros Hr; apply Qdiv_one; lra);
           revert Hq Hq1; generalize (a / kdp_of st); intros q Hq Hq1
       end
     | ]);
    qcases; repeat split; try lra; try discriminate.
Qed.

End Sweep.

Section WholeSweep.

Local Open Scope Q_scope.

Variables (sij : Q) (smin smax : Array1D Q).

(** A whole sweep, started inside the envelope, with [sgndif] the sign it
    computes and [tg] the bounds it pushes towards: every corner stays in
    the envelope and moves, if at all, towards its target; the carried
    residual is the defect of the result and has not changed sign; a corner
    that does not take part keeps its value; and unless the defect is
    removed, or nobody took part, a corner that took part ends on its
    target. *)
Lemma limiter_sweep_step (sc : Array1D Q) :
  Spec.in_envelope smin smax sc ->
  let sgndif := sweep_sgndif sij sc in
  let tg := Progress.target sgndif smin smax in
  let sc' := limiter_sweep sij smin smax sc in
  Spec.in_envelope smin smax sc' /\
  (0 <= (a1 sc - a1 sc') * sgndif /\ 0 <= (a2 sc - a2 sc') * sgndif /\
   0 <= (a3 sc - a3 sc') * sgndif /\ 0 <= (a4 sc - a4 sc') * sgndif) /\
  sumdif_of (sweep_state sij smin smax sc [1; 2; 3; 4]%Z)
  == Spec.defect sij sc' /\
  0 <= Spec.defect sij sc' * sgndif /\
  (((a1 sc - sij) * sgndif <= eps -> a1 sc' == a1 sc) /\
   ((a2 sc - sij) * sgndif <= eps -> a2 sc' == a2 sc) /\
   ((a3 sc - sij) * sgndif <= eps -> a3 sc' == a3 sc) /\
   ((a4 sc - sij) * sgndif <= eps -> a4 sc' == a4 sc)) /\
  (Spec.defect sij sc' == 0 \/
   ((a1 sc - sij) * sgndif <= eps /\ (a2 sc - sij) * sgndif <= eps /\
    (a3 sc - sij) * sgndif <= eps /\ (a4 sc - sij) * sgndif <= eps) \/
   (eps < (a1 sc - sij) * sgndif /\ a1 sc' == a1 tg) \/
   (eps < (a2 sc - sij) * sgndif /\ a2 sc' == a2 tg) \/
   (eps < (a3 sc - sij) * sgndif /\ a3 sc' == a3 tg) \/
   (eps < (a4 sc - sij) * sgndif /\ a4 sc' == a4 tg)).
Proof.
  intros (E1 & E2 & E3 & E4) sgndif tg sc'. subst tg sc'.
  unfold limiter_sweep, sweep_state, sweep_init, Spec.in_envelope.
  fold sgndif. cbn [fold_left].
  pose proof (sweep_sgndif_cases sij sc) as Hsg. fold sgndif in Hsg.
  pose proof (sweep_sumdif_defect sij sc) as S0.
  clearbody sgndif.
  assert (Hsg' : sgndif = 1 \/ sgndif = -1) by tauto.
  assert (HD : 0 <= Spec.defect sij sc * sgndif)
    by (destruct Hsg as [[? ->] | [? ->]]; lra).
  set (diff := sweep_diff sij sgndif sc).
  assert (Hd : forall k, get diff k == (get sc k - sij) * sgndif).
  { intros k. subst diff. unfold sweep_diff.
    destruct k as [| [[|[]|]|[|[]|]|] |]; cbn [get a1 a2 a3 a4]; qred;
      reflexivity. }
  assert (K0 := sweep_kdp_count diff).
  set (st0 := mkSweepState sc (sweep_sumdif sij sc) (sweep_kdp diff)).
  change (sweep_kdp diff) with (kdp_of st0) in K0.
  change (sweep_sumdif sij sc) with (sumdif_of st0) in S0.
  assert (C0 : sc_of st0 = sc) by reflexivity.
  pose proof (b2q_nonneg (Qltb eps (get diff 1))) as N1.
  pose proof (b2q_nonneg (Qltb eps (get diff 2))) as N2.
  pose proof (b2q_nonneg (Qltb eps (get diff 3))) as N3.
  pose proof (b2q_nonneg (Qltb eps (get diff 4))) as N4.
  set (b1 := Qltb eps (get diff 1)) in *.
  set (b2 := Qltb eps (get diff 2)) in *.
  set (b3 := Qltb eps (get diff 3)) in *.
  set (b4 := Qltb eps (get diff 4)) in *.
  destruct (corner_update_step sij smin smax sgndif diff st0 1
              (Progress.b2q b2 + (Progress.b2q b3 + (Progress.b2q b4 + 0))))
    as (F1 & B1 & M1 & S1 & P1 & K1 & U1 & L1);
    [exact Hsg' | cbn; tauto | rewrite C0; apply Hd | rewrite C0; exact E1
    | rewrite S0; exact HD | lra | exact K0 |].
  set (st1 := corner_update smin smax diff sgndif st0 1) in *.
  destruct (corner_update_step sij smin smax sgndif diff st1 2
              (Progress.b2q b3 + (Progress.b2q b4 + 0)))
    as (F2 & B2 & M2 & S2 & P2 & K2 & U2 & L2);
    [exact Hsg' | cbn; tauto
    | rewrite F1, C0 by (cbn; intuition lia); apply Hd
    | rewrite F1, C0 by (cbn; intuition lia); exact E2
    | exact P1 | lra | exact K1 |].
  set (st2 := corner_update smin smax diff sgndif st1 2) in *.
  destruct (corner_update_step sij smin smax sgndif diff st2 3
              (Progress.b2q b4 + 0))
    as (F3 & B3 & M3 & S3 & P3 & K3 & U3 & L3);
    [exact Hsg' | cbn; tauto
    | rewrite F2, F1, C0 by (cbn; intuition lia); apply Hd
    | rewrite F2, F1, C0 by (cbn; intuition lia); exact E3
    | exact P2 | lra | exact K2 |].
  set (st3 := corner_update smin smax diff sgndif st2 3) in *.
  destruct (corner_update_step sij smin smax sgndif diff st3 4 0)
    as (F4 & B4 & M4 & S4 & P4 & K4 & U4 & L4);
    [exact Hsg' | cbn; tauto
    | rewrite F3, F2, F1, C0 by (cbn; intuition lia); apply Hd
    | rewrite F3, F2, F1, C0 by (cbn; intuition lia); exact E4
    | exact P3 | lra | exact K3 |].
  set (st4 := corner_update smin smax diff sgndif st3 4) in *.
  assert (T1 : b1 = true <-> eps < (a1 sc - sij) * sgndif)
    by (subst b1; rewrite Qltb_lt, (Hd 1%Z); reflexivity).
  assert (T2 : b2 = true <-> eps < (a2 sc - sij) * sgndif)
    by (subst b2; rewrite Qltb_lt, (Hd 2%Z); reflexivity).
  assert (T3 : b3 = true <-> eps < (a3 sc - sij) * sgndif)
    by (subst b3; rewrite Qltb_lt, (Hd 3%Z); reflexivity).
  assert (T4 : b4 = true <-> eps < (a4 sc - sij) * sgndif)
    by (subst b4; rewrite Qltb_lt, (Hd 4%Z); reflexivity).
  assert (G1 : a1 (sc_of st4) = get (sc_of st1) 1)
    by (change (a1 (sc_of st4)) with (get (sc_of st4) 1);
        rewrite F4, F3, F2 by (cbn; intuition lia); reflexivity).
  assert (G2 : a2 (sc_of st4) = get (sc_of st2) 2)
    by (change (a2 (sc_of st4)) with (get (sc_of st4) 2);
        rewrite F4, F3 by (cbn; intuition lia); reflexivity).
  assert (G3 : a3 (sc_of st4) = get (sc_of st3) 3)
    by (change (a3 (sc_of st4)) with (get (sc_of st4) 3);
        rewrite F4 by (cbn; intuition lia); reflexivity).
  assert (G4 : a4 (sc_of st4) = get (sc_of st4) 4) by reflexivity.
  rewrite F3, F2, F1, C0 in M4, S4, U4 by (cbn; intuition lia).
  rewrite F2, F1, C0 in M3, S3, U3 by (cbn; intuition lia).
  rewrite F1, C0 in M2, S2, U2 by (cbn; intuition lia).
  rewrite C0 in M1, S1, U1.
  change (Qltb eps (get diff 1)) with b1 in U1, L1.
  change (Qltb eps (get diff 2)) with b2 in U2, L2.
  change (Qltb eps (get diff 3)) with b3 in U3, L3.
  change (Qltb eps (get diff 4)) with b4 in U4, L4.
  unfold Spec.defect in *. rewrite G1, G2, G3, G4.
  clearbody b1 b2 b3 b4 st0 st1 st2 st3 st4.
  clear F1 F2 F3 F4 Hd G1 G2 G3 G4 C0 Hsg'.
  destruct Hsg as [[HD' ->] | [HD' ->]]; unfold Progress.target in *;
    [change (Qltb 0 1) with true in * | change (Qltb 0 (-1)) with false in *];
    cbv iota in *; cbn [get] in *;
    destruct b1, b2, b3, b4; cbn [Progress.b2q] in *; use_flags; lra.
Qed.

End WholeSweep.

Section Limited.

Local Open Scope Q_scope.

Variables (sij : Q) (smin smax : Array1D Q).
Hypothesis Hb : Progress.bounds_contain sij smin smax.

Lemma active_true (sgndif c : Q) :
  Progress.active sgndif sij c = true <-> eps < (c - sij) * sgndif.
Proof. apply Qltb_lt. Qed.

Lemma active_false (sgndif c : Q) :
  Progress.active sgndif sij c = false <-> (c - sij) * sgndif <= eps.
Proof. apply Qltb_ge. Qed.

Lemma active_mono (sgndif c c' : Q) :
  0 <= (c - c') * sgndif ->
  Progress.active sgndif sij c' = true -> Progress.active sgndif sij c = true.
Proof. rewrite !active_true. lra. Qed.

(** The envelope is kept by a sweep. *)
Lemma limiter_sweep_envelope (sc : Array1D Q) :
  Spec.in_envelope smin smax sc ->
  Spec.in_envelope smin smax (limiter_sweep sij smin smax sc).
Proof. intros H. apply (limiter_sweep_step sij smin smax sc H). Qed.

(** A sweep uses up one of the corners that take part, unless it makes
    the mean exact. *)
Lemma limiter_sweep_settles (n : nat) (sc : Array1D Q) :
  Spec.in_envelope smin smax sc ->
  Progress.settled (S n) sij sc ->
  Progress.settled n sij (limiter_sweep sij smin smax sc).
Proof.
  intros Henv Hs.
  destruct (limiter_sweep_step sij smin smax sc Henv)
    as (_ & (M1 & M2 & M3 & M4) & _ & D' & _ & L).
  cbv zeta in M1, M2, M3, M4, D', L.
  destruct Hb as (W1 & W2 & W3 & W4).
  pose proof eps_pos as He.
  set (sc' := limiter_sweep sij smin smax sc) in *.
  unfold Progress.settled in *.
  destruct (Q_dec (Spec.defect sij sc') 0) as [NZ' | Z']; [| left; exact Z'].
  right.
  assert (Hsame : sweep_sgndif sij sc' = sweep_sgndif sij sc).
  { destruct (sweep_sgndif_cases sij sc) as [[HD E] | [HD E]];
      destruct (sweep_sgndif_cases sij sc') as [[HD' E'] | [HD' E']];
      rewrite E in *; rewrite E'; try reflexivity;
      destruct NZ'; lra. }
  rewrite Hsame.
  assert (NZ : ~ Spec.defect sij sc == 0).
  { intros Z.
    destruct (sweep_sgndif_cases sij sc) as [[HD E] | [HD E]];
      rewrite E in *; unfold Spec.defect in *; destruct NZ'; lra. }
  destruct Hs as [Hs | Hs]; [contradiction |].
  assert (Hsg : sweep_sgndif sij sc = 1 \/ sweep_sgndif sij sc = -1)
    by (destruct (sweep_sgndif_cases sij sc) as [[_ E] | [_ E]]; auto).
  revert M1 M2 M3 M4 D' L Hs Hsg.
  generalize (sweep_sgndif sij sc). intros sg M1 M2 M3 M4 D' L Hs Hsg.
  unfold Progress.n_active in *.
  destruct L as [L | [L | L]]; [destruct NZ'; lra | |].
  - apply Nat.le_trans with 0%nat; [| lia].
    destruct L as (L1 & L2 & L3 & L4).
    apply active_false in L1, L2, L3, L4.
    assert (X := count_le _ _ _ _ _ _ _ _
                   (active_mono sg (a1 sc) (a1 sc') M1)
                   (active_mono sg (a2 sc) (a2 sc') M2)
                   (active_mono sg (a3 sc) (a3 sc') M3)
                   (active_mono sg (a4 sc) (a4 sc') M4)).
    rewrite L1, L2, L3, L4 in X. exact X.
  - apply le_S_n. eapply Nat.le_trans; [| exact Hs].
    apply count_lt; try (apply active_mono; assumption).
    rewrite !active_true, !active_false.
    unfold Progress.target in L.
    destruct Hsg as [-> | ->];
      [change (Qltb 0 1) with true in L | change (Qltb 0 (-1)) with false in L];
      cbv iota in L; lra.
Qed.

(** When nobody takes part any more, the defect is within [4 eps]. *)
Lemma settled_0_defect (sc : Array1D Q) :
  Progress.settled 0 sij sc -> Qabs (Spec.defect sij sc) <= 4 * eps.
Proof.
  pose proof eps_pos as He.
  intros [H | N]; apply Qabs_Qle_condition; [lra |].
  unfold Progress.n_active in N.
  destruct (Progress.active _ sij (a1 sc)) eqn:O1; [cbn in N; lia |].
  destruct (Progress.active _ sij (a2 sc)) eqn:O2; [cbn in N; lia |].
  destruct (Progress.active _ sij (a3 sc)) eqn:O3; [cbn in N; lia |].
  destruct (Progress.active _ sij (a4 sc)) eqn:O4; [cbn in N; lia |].
  apply active_false in O1, O2, O3, O4.
  destruct (sweep_sgndif_cases sij sc) as [[HD E] | [HD E]];
    rewrite E in *; unfold Spec.defect in *; lra.
Qed.

Lemma sweeps_envelope (n : nat) (sc : Array1D Q) :
  Spec.in_envelope smin smax sc ->
  Spec.in_envelope smin smax (sweeps n sij smin smax sc).
Proof.
  intros H. induction n as [| n IH]; cbn [sweeps];
    [exact H | apply limiter_sweep_envelope, IH].
Qed.

Lemma sweeps_settle (n m : nat) (sc : Array1D Q) :
  Spec.in_envelope smin smax sc ->
  Progress.settled (n + m) sij sc ->
  Progress.settled m sij (sweeps n sij smin smax sc).
Proof.
  intros He. revert m. induction n as [| n IH]; intros m Hs; cbn [sweeps].
  - exact Hs.
  - apply limiter_sweep_settles; [apply sweeps_envelope, He |].
    apply IH. now rewrite Nat.add_succ_r.
Qed.

(** The clamp of lines 179-181. *)
Lemma clamp_corners_values (sc : Array1D Q) :
  clamp_corners sc smin smax =
  mkArray1D (rmax (rmin (a1 sc) (a1 smax)) (a1 smin))
            (rmax (rmin (a2 sc) (a2 smax)) (a2 smin))
            (rmax (rmin (a3 sc) (a3 smax)) (a3 smin))
            (rmax (rmin (a4 sc) (a4 smax)) (a4 smin)).
Proof. reflexivity. Qed.

Lemma clamp_one (c m M : Q) :
  m <= sij <= M ->
  m <= rmax (rmin c M) m <= M /\
  (c <= sij -> rmax (rmin c M) m <= sij) /\
  (sij <= c -> sij <= rmax (rmin c M) m).
Proof.
  intros H. unfold rmax, rmin. qred.
  destruct (Qltb M c) eqn:E1; [apply Qltb_lt in E1 | apply Qltb_ge in E1];
    qcases; lra.
Qed.

Lemma clamp_envelope (sc : Array1D Q) :
  Spec.in_envelope smin smax (clamp_corners sc smin smax).
Proof.
  destruct Hb as (W1 & W2 & W3 & W4).
  rewrite clamp_corners_values. unfold Spec.in_envelope. cbn [a1 a2 a3 a4].
  repeat split; eapply clamp_one; eassumption.
Qed.

(** Corner values whose mean is [s(i,j)] before the clamp: after it, one
    corner at least is not above [s(i,j)] and one at least is not below,
    so at most three take part in the first sweep. *)
Lemma clamp_settled (sc : Array1D Q) :
  Spec.defect sij sc == 0 ->
  Progress.settled 3 sij (clamp_corners sc smin smax).
Proof.
  intros H0. destruct Hb as (W1 & W2 & W3 & W4).
  pose proof eps_pos as He. right.
  assert (Hsg : sweep_sgndif sij (clamp_corners sc smin smax) = 1 \/
                sweep_sgndif sij (clamp_corners sc smin smax) = -1)
    by (destruct (sweep_sgndif_cases sij (clamp_corners sc smin smax))
          as [[_ E] | [_ E]]; auto).
  revert Hsg. generalize (sweep_sgndif sij (clamp_corners sc smin smax)).
  intros sg Hsg.
  rewrite clamp_corners_values.
  destruct (clamp_one (a1 sc) _ _ W1) as (_ & X1 & Y1).
  destruct (clamp_one (a2 sc) _ _ W2) as (_ & X2 & Y2).
  destruct (clamp_one (a3 sc) _ _ W3) as (_ & X3 & Y3).
  destruct (clamp_one (a4 sc) _ _ W4) as (_ & X4 & Y4).
  revert X1 Y1 X2 Y2 X3 Y3 X4 Y4.
  generalize (rmax (rmin (a1 sc) (a1 smax)) (a1 smin))
             (rmax (rmin (a2 sc) (a2 smax)) (a2 smin))
             (rmax (rmin (a3 sc) (a3 smax)) (a3 smin))
             (rmax (rmin (a4 sc) (a4 smax)) (a4 smin)).
  intros c1 c2 c3 c4 X1 Y1 X2 Y2 X3 Y3 X4 Y4.
  unfold Progress.n_active, Spec.defect in *. cbn [a1 a2 a3 a4].
  destruct (Progress.active sg sij c1) eqn:O1, (Progress.active sg sij c2) eqn:O2,
    (Progress.active sg sij c3) eqn:O3, (Progress.active sg sij c4) eqn:O4;
    cbn [Progress.b2n]; try lia.
  exfalso. apply active_true in O1, O2, O3, O4.
  destruct Hsg as [-> | ->].
  - destruct (Qlt_le_dec sij (a1 sc)) as [Z1 | Z1]; [| lra].
    destruct (Qlt_le_dec sij (a2 sc)) as [Z2 | Z2]; [| lra].
    destruct (Qlt_le_dec sij (a3 sc)) as [Z3 | Z3]; [| lra].
    destruct (Qlt_le_dec sij (a4 sc)) as [Z4 | Z4]; lra.
  - destruct (Qlt_le_dec (a1 sc) sij) as [Z1 | Z1]; [| lra].
    destruct (Qlt_le_dec (a2 sc) sij) as [Z2 | Z2]; [| lra].
    destruct (Qlt_le_dec (a3 sc) sij) as [Z3 | Z3]; [| lra].
    destruct (Qlt_le_dec (a4 sc) sij) as [Z4 | Z4]; lra.
Qed.

(** After the clamp and three sweeps the defect is within [4 eps]. *)
Lemma three_sweeps_defect (sc : Array1D Q) :
  Spec.defect sij sc == 0 ->
  Qabs (Spec.defect sij (sweeps 3 sij smin smax (clamp_corners sc smin smax)))
  <= 4 * eps.
Proof.
  intros H0. apply settled_0_defect.
  apply sweeps_settle; [apply clamp_envelope | apply clamp_settled, H0].
Qed.

End Limited.

Section LimitedCell.

Local Open Scope Q_scope.

Variables (s sint : Array4 Q) (hx hy : Q) (i j : Z).

Lemma rmin4_bounds (a b c d : Q) :
  rmin4 a b c d <= a /\ rmin4 a b c d <= b /\ rmin4 a b c d <= c /\
  rmin4 a b c d <= d /\
  (rmin4 a b c d == a \/ rmin4 a b c d == b \/ rmin4 a b c d == c \/
   rmin4 a b c d == d).
Proof.
  unfold rmin4, rmin. qred.
  destruct (Qltb b a) eqn:E1; [apply Qltb_lt in E1 | apply Qltb_ge in E1];
    (destruct (Qltb c _) eqn:E2;
     [apply Qltb_lt in E2 | apply Qltb_ge in E2]);
    qcases; lra.
Qed.

Lemma rmax4_bounds (a b c d : Q) :
  a <= rmax4 a b c d /\ b <= rmax4 a b c d /\ c <= rmax4 a b c d /\
  d <= rmax4 a b c d /\
  (rmax4 a b c d == a \/ rmax4 a b c d == b \/ rmax4 a b c d == c \/
   rmax4 a b c d == d).
Proof.
  unfold rmax4, rmax. qred.
  destruct (Qltb a b) eqn:E1; [apply Qltb_lt in E1 | apply Qltb_ge in E1];
    (destruct (Qltb _ c) eqn:E2;
     [apply Qltb_lt in E2 | apply Qltb_ge in E2]);
    qcases; lra.
Qed.

Lemma corner_bounds_contain :
  Progress.bounds_contain (s i j) (corner_smin s i j) (corner_smax s i j).
Proof.
  unfold Progress.bounds_contain, corner_smin, corner_smax. cbn [a1 a2 a3 a4].
  repeat split;
    first [ apply (rmin4_bounds (s i j)) | apply (rmax4_bounds (s i j)) ].
Qed.

Lemma corner_values_defect (sl : Slopes Q) :
  Spec.defect (s i j) (corner_values s sl hx hy i j) == 0.
Proof.
  unfold Spec.defect, corner_values. cbn [a1 a2 a3 a4]. qred. ring.
Qed.

Lemma limited_corners_envelope (n : nat) :
  Spec.in_envelope (corner_smin s i j) (corner_smax s i j)
    (limited_corners n s sint hx hy i j).
Proof.
  unfold limited_corners.
  apply sweeps_envelope, (clamp_envelope (s i j)), corner_bounds_contain.
Qed.

Lemma limited_corners_defect :
  Qabs (Spec.defect (s i j) (limited_corners 3 s sint hx hy i j)) <= 4 * eps.
Proof.
  unfold limited_corners.
  apply three_sweeps_defect;
    [apply corner_bounds_contain | apply corner_values_defect].
Qed.

Lemma mean_defect (sij : Q) (sc : Array1D Q) :
  Spec.mean sc - sij == Spec.defect sij sc / 4.
Proof. unfold Spec.mean, Spec.defect. field. Qed.


End LimitedCell.

(** ** The limiter on concrete cells *)

Section LimiterRuns.

Local Open Scope Q_scope.


End LimiterRuns.

(** ** Bookkeeping of a sweep *)

Section Bookkeeping.

Local Open Scope Q_scope.

Variables (sij : Q) (smin smax : Array1D Q).

Lemma corner_update_delta (diff : Array1D Q) (sgndif : Q)
  (st : SweepState Q) (mm : Z) :
  In mm [1; 2; 3; 4]%Z ->
  let delta :=
    rmin (corner_redfac diff sgndif (sumdif_of st) (kdp_of st) mm)
         (corner_redmax smin smax (sc_of st) sgndif mm) * sgndif in
  let st' := corner_update smin smax diff sgndif st mm in
  sumdif_of st' = sumdif_of st - delta /\
  get (sc_of st') mm = get (sc_of st) mm - delta /\
  (forall k, In k [1; 2; 3; 4]%Z -> k <> mm ->
             get (sc_of st') k = get (sc_of st) k).
Proof.
  intros Hmm delta st'. subst delta st'. unfold corner_update.
  cbn [sc_of sumdif_of]. qred.
  split; [reflexivity |]. split.
  - now rewrite get_set_same.
  - intros k Hk Hne. now apply get_set_other.
Qed.

Lemma corner_update_carries (diff : Array1D Q) (sgndif : Q)
  (st : SweepState Q) (mm : Z) :
  In mm [1; 2; 3; 4]%Z ->
  Spec.carries_defect sij st ->
  Spec.carries_defect sij (corner_update smin smax diff sgndif st mm).
Proof.
  intros Hmm Hc.
  destruct (corner_update_delta diff sgndif st mm Hmm) as (Hs & Hg & Hf).
  cbv zeta in Hs, Hg, Hf. revert Hs Hg Hf.
  generalize (rmin (corner_redfac diff sgndif (sumdif_of st) (kdp_of st) mm)
                (corner_redmax smin smax (sc_of st) sgndif mm) * sgndif).
  generalize (corner_update smin smax diff sgndif st mm).
  intros st' delta Hs Hg Hf.
  unfold Spec.carries_defect, Spec.defect in *. rewrite Hs, Hc.
  change (a1 (sc_of st')) with (get (sc_of st') 1).
  change (a2 (sc_of st')) with (get (sc_of st') 2).
  change (a3 (sc_of st')) with (get (sc_of st') 3).
  change (a4 (sc_of st')) with (get (sc_of st') 4).
  cbn in Hmm. destruct Hmm as [<- | [<- | [<- | [<- | []]]]];
    rewrite Hg, !Hf by (cbn; intuition lia); cbn [get]; ring.
Qed.

Lemma corner_updates_carry (diff : Array1D Q) (sgndif : Q) (mms : list Z)
  (st : SweepState Q) :
  Forall (fun mm => In mm [1; 2; 3; 4]%Z) mms ->
  Spec.carries_defect sij st ->
  Spec.carries_defect sij
    (fold_left (corner_update smin smax diff sgndif) mms st).
Proof.
  intros Hall. revert st.
  induction Hall as [| mm mms Hmm _ IH]; intros st Hc; cbn [fold_left].
  - exact Hc.
  - apply IH, corner_update_carries; assumption.
Qed.


End Bookkeeping.

(** ** Corners that do not take part in a sweep *)

Section Inactive.

Local Open Scope Q_scope.

Variables (s sint : Array4 Q) (hx hy : Q) (i j : Z).

Lemma sweep_state_frame (sij : Q) (smin smax sc : Array1D Q) (mm : Z) :
  In mm [1; 2; 3; 4]%Z ->
  get (sc_of (sweep_state sij smin smax sc
                (firstn (Z.to_nat (mm - 1)) [1; 2; 3; 4]%Z))) mm
  = get sc mm.
Proof.
  cbn. intros [<- | [<- | [<- | [<- | []]]]]; reflexivity.
Qed.


End Inactive.

Section InactiveRun.

Local Open Scope Q_scope.


End InactiveRun.

(** ** The sign of the residual *)

Section Sign.

Lemma b64_one : rlit (T := B64.t) 1 = S754_finite false 4503599627370496 (-52).
Proof. reflexivity. Qed.

Lemma b64_minus_one :
  rlit (T := B64.t) (-1) = S754_finite true 4503599627370496 (-52).
Proof. reflexivity. Qed.

(** C7 (as stated) fails in binary64.  State [Inputs.tiny] on unit cells,
    cell [(0,0)]: the clamped corner values are [(-d, +0, +0, +0)] with [d]
    the smallest subnormal, their sum times 0.25 rounds to [-0], and with
    [s(0,0) = +0] the residual [sumdif] of the first sweep is the zero [-0];
    [std::copysign(1.0, -0.0)] is [-1.0]. *)
Lemma sgndif_negative_zero_counterexample :
  let s := Inputs.tiny in
  let sint :=
    ComputeSlopes_sint (Inputs.mf_of Inputs.origin_cells s) 0%Z
      (fun _ _ => S754_nan) in
  let sc := limited_corners 0 s sint (rlit 1) (rlit 1) 0%Z 0%Z in
  sc = mkArray1D (S754_finite true 1 (-1074)) B64.pzero B64.pzero B64.pzero /\
  sweep_sumdif (s 0%Z 0%Z) sc = B64.nzero /\
  SFeqb (sweep_sumdif (s 0%Z 0%Z) sc) (rlit 0) = true /\
  sweep_sgndif (s 0%Z 0%Z) sc = rlit (-1) /\
  sweep_sgndif (s 0%Z 0%Z) sc <> rlit 1.
Proof.
  cbv zeta. split; [vm_compute; reflexivity |].
  split; [vm_compute; reflexivity |]. split; [vm_compute; reflexivity |].
  split; [vm_compute; reflexivity |]. vm_compute. discriminate.
Qed.

(** C7 (as amended).  [sumdif] is four times the difference between the
    mean of the corner values and [s(i,j)].  In exact arithmetic [sgndif] is
    [+1] when [sumdif] is zero or positive and [-1] when it is negative.
    In binary64 [sgndif] follows the sign bit of [sumdif]: [+1] for a
    positive [sumdif] and for [+0], [-1] for a negative [sumdif] and for
    [-0]. *)
Theorem sgndif_follows_sign (sij : B64.t) (sc : Array1D B64.t) :
  B64.is_nan (sweep_sumdif sij sc) = false ->
  (forall (qij : Q) (qc : Array1D Q),
     (sweep_sumdif qij qc == 4 * (Spec.mean qc - qij))%Q /\
     ((0 <= sweep_sumdif qij qc)%Q -> sweep_sgndif qij qc = 1%Q) /\
     ((sweep_sumdif qij qc < 0)%Q -> sweep_sgndif qij qc = (-1)%Q)) /\
  sweep_sgndif sij sc
  = (if B64.signbit (sweep_sumdif sij sc) then rlit (-1) else rlit 1) /\
  (sweep_sumdif sij sc = B64.pzero -> sweep_sgndif sij sc = rlit 1) /\
  (sweep_sumdif sij sc = B64.nzero -> sweep_sgndif sij sc = rlit (-1)).
Proof.
  intros Hnan. split; [| split; [| split]].
  - intros qij qc. split; [| split].
    + rewrite sweep_sumdif_defect. unfold Spec.defect, Spec.mean. field.
    + rewrite sweep_sumdif_defect. intros H.
      destruct (sweep_sgndif_cases qij qc) as [[_ E] | [HD _]];
        [exact E | lra].
    + rewrite sweep_sumdif_defect. intros H.
      destruct (sweep_sgndif_cases qij qc) as [[HD _] | [_ E]];
        [lra | exact E].
  - unfold sweep_sgndif.
    cbn [rcopysign B64_RealArith]. rewrite b64_one, b64_minus_one.
    cbn [B64.copysign]. destruct (B64.signbit _); reflexivity.
  - intros H. unfold sweep_sgndif. rewrite H. reflexivity.
  - intros H. unfold sweep_sgndif. rewrite H. reflexivity.
Qed.

Lemma sgndif_follows_sign_witness :
  sweep_sgndif (T := B64.t) B64.pzero
    (mkArray1D (S754_finite true 1 (-1074)) B64.pzero B64.pzero B64.pzero)
  = rlit (-1).
Proof.
  apply (sgndif_follows_sign B64.pzero
           (mkArray1D (S754_finite true 1 (-1074)) B64.pzero B64.pzero
              B64.pzero)).
  - reflexivity.
  - reflexivity.
Defined.

End Sign.

(** ** A constant state *)

Section ConstantState.

Local Open Scope Q_scope.

Variables (s : Array4 Q) (c : Q).
Hypothesis Hs : forall i j, s i j == c.

Lemma sint_kernel_const (i j : Z) : sint_kernel s i j == c.
Proof. unfold sint_kernel. qred. rewrite !Hs. field. Qed.

Lemma corner_bounds_const (i j : Z) :
  let smin := corner_smin s i j in
  let smax := corner_smax s i j in
  (a1 smin == c /\ a2 smin == c /\ a3 smin == c /\ a4 smin == c) /\
  (a1 smax == c /\ a2 smax == c /\ a3 smax == c /\ a4 smax == c).
Proof.
  cbv zeta. unfold corner_smin, corner_smax. cbn [a1 a2 a3 a4].
  assert (Hmin : forall a b d e, a == c -> b == c -> d == c -> e == c ->
                   rmin4 a b d e == c).
  { intros a b d e Ha H2 H3 H4.
    destruct (rmin4_bounds a b d e) as (_ & _ & _ & _ & [H | [H | [H | H]]]);
      rewrite H; assumption. }
  assert (Hmax : forall a b d e, a == c -> b == c -> d == c -> e == c ->
                   rmax4 a b d e == c).
  { intros a b d e Ha H2 H3 H4.
    destruct (rmax4_bounds a b d e) as (_ & _ & _ & _ & [H | [H | [H | H]]]);
      rewrite H; assumption. }
  repeat split; first [apply Hmin | apply Hmax]; apply Hs.
Qed.

(** The limiter leaves no slope on a constant state, whatever the corner
    values [sint] it starts from. *)
Lemma slope_kernel_const (sint : Array4 Q) (hx hy : Q) (i j n : Z) :
  slope_comp (slope_kernel s sint hx hy i j) n == 0.
Proof.
  unfold slope_kernel. change limit_slopes with true. cbv iota.
  pose proof (limited_corners_envelope s sint hx hy i j 3) as (V1 & V2 & V3 & V4).
  destruct (corner_bounds_const i j) as ((M1 & M2 & M3 & M4) & (X1 & X2 & X3 & X4)).
  cbv zeta in M1, M2, M3, M4, X1, X2, X3, X4.
  revert V1 V2 V3 V4.
  generalize (limited_corners 3 s sint hx hy i j). intros sc V1 V2 V3 V4.
  assert (C1 : a1 sc == c) by lra. assert (C2 : a2 sc == c) by lra.
  assert (C3 : a3 sc == c) by lra. assert (C4 : a4 sc == c) by lra.
  unfold final_slopes, slope_comp. cbn [get sx sy sxy]. qred.
  destruct n as [| [] |]; rewrite C1, C2, C3, C4; unfold Qdiv; ring.
Qed.

End ConstantState.

Section ConstantEdges.

Local Open Scope Q_scope.

Variables (s : Array4 Q) (slope : Array4n Q) (uadv vadv force : Array4 Q).
Variables (hx hy dt c : Q) (i j : Z).
Hypothesis Hs : forall i j, s i j == c.
Hypothesis Hf : forall i j, force i j == 0.

(** The Gamma integrals and edge states of a face whose neighbouring cells
    carry no slope. *)
Lemma x_edge_kernel_const :
  (forall i' j' n, (i - 1 <= i' <= i)%Z -> (j - 1 <= j' <= j + 1)%Z ->
                   slope i' j' n == 0) ->
  x_edge_kernel s slope uadv vadv force hx hy dt i j == c.
Proof.
  intros Hsl.
  unfold x_edge_kernel, x_vdif, x_vaddif, x_stem, x_divu, x_gamp, x_gamm,
    x_gamma, x_donor.
  qred. cbv beta iota zeta.
  qsplit; rewrite ?Hs, ?Hf, ?Hsl by lia;
    unfold Qdiv; generalize (/ hx) (/ hy); intros; field.
Qed.

Lemma y_edge_kernel_const :
  (forall i' j' n, (i - 1 <= i' <= i + 1)%Z -> (j - 1 <= j' <= j)%Z ->
                   slope i' j' n == 0) ->
  y_edge_kernel s slope uadv vadv force hx hy dt i j == c.
Proof.
  intros Hsl.
  unfold y_edge_kernel, y_gamp, y_gamm, y_gamma, y_donor.
  qred. cbv beta iota zeta.
  qsplit; rewrite ?Hs, ?Hf, ?Hsl by lia;
    unfold Qdiv; generalize (/ hx) (/ hy); intros; field.
Qed.

End ConstantEdges.

Section ConstantDriver.

Local Open Scope Q_scope.

Variables (s_mf : MultiFab Q) (state_comp : Z) (geom : Geometry Q).
Variables (xedge yedge : MultiFab Q) (edge_comp : Z).
Variables (umac vmac fq : MultiFab Q) (fq_comp is_conservative : Z).
Variables (dt : Q) (slope0 : Array4n Q) (sint0 : Array4 Q).

Lemma ComputeSlopes_inside (slope_mf : MultiFab Q) (i j n : Z) :
  contains (grow (boxArray s_mf) 1) i j = true ->
  fab (ComputeSlopes s_mf geom slope_mf state_comp sint0) i j n
  = slope_comp
      (slope_kernel (array s_mf state_comp)
         (ComputeSlopes_sint s_mf state_comp sint0)
         (CellSize_x geom) (CellSize_y geom) i j) n.
Proof.
  intros Hin. unfold ComputeSlopes. cbn [fab].
  now rewrite ParallelFor_n_inside.
Qed.


End ConstantDriver.

Section ConstantRun.

Local Open Scope Q_scope.


End ConstantRun.

(** ** No flow *)

Section NoFlow.

Local Open Scope Q_scope.

Variables (s : Array4 Q) (slope : Array4n Q) (uadv vadv force : Array4 Q).
Variables (hx hy dt : Q) (i j : Z).
Hypothesis Hu : forall i j, uadv i j == 0.
Hypothesis Hv : forall i j, vadv i j == 0.
Hypothesis Hf : forall i j, force i j == 0.

Lemma x_donor_no_flow : x_donor uadv i j = (i, -1).
Proof.
  unfold x_donor. qred.
  assert (H : Qltb 0 (uadv i j) = false) by (apply Qltb_ge; rewrite Hu; lra).
  now rewrite H.
Qed.

Lemma x_terms_no_flow :
  x_vdif s slope uadv vadv hx hy dt i j == 0 /\
  x_vaddif s slope uadv hx dt i j == 0 /\
  x_divu uadv vadv hx hy i j == 0 /\
  x_stem s slope uadv hx dt i j == s i j - (1 # 2) * hx * slope i j 0%Z.
Proof.
  unfold x_vdif, x_vaddif, x_divu, x_stem. rewrite x_donor_no_flow.
  generalize (x_gamp s slope uadv vadv hx hy dt i j)
             (x_gamm s slope uadv vadv hx hy dt i j).
  intros gamp gamm. qred. cbv beta iota zeta.
  rewrite !Hu, !Hv. unfold Qdiv.
  split; [ring | split; [ring | split; ring]].
Qed.

Lemma x_edge_kernel_no_flow :
  x_edge_kernel s slope uadv vadv force hx hy dt i j
  == s i j - (1 # 2) * hx * slope i j 0%Z.
Proof.
  destruct x_terms_no_flow as (H1 & H2 & H3 & H4).
  unfold x_edge_kernel. rewrite x_donor_no_flow. cbv beta iota zeta.
  rewrite H1, H2, H3, H4, Hf. qred. unfold Qdiv. ring.
Qed.

End NoFlow.

Section NoFlowDriver.

Local Open Scope Q_scope.

(** C8 (as amended).  With zero face velocities and zero forcing, on every
    x-face of the box of [umac] the terms [vdif], [vaddif] and [divu] are
    zero and the edge state written to [xedge] is
    [s(i,j) - hx/2 sx(i,j)]: the strict upwind test fails on a zero
    velocity, so the donor is the cell [(i,j)] on the high side of the face
    and the trace runs backwards from its centre. *)
Theorem no_flow_xedge
  (s_mf : MultiFab Q) (state_comp : Z) (geom : Geometry Q)
  (xedge yedge : MultiFab Q) (edge_comp : Z) (umac vmac fq : MultiFab Q)
  (fq_comp is_conservative : Z) (dt : Q) (slope0 : Array4n Q)
  (sint0 : Array4 Q) (i j : Z) :
  (forall i j, array umac 0 i j == 0) ->
  (forall i j, array vmac 0 i j == 0) ->
  (forall i j, array fq fq_comp i j == 0) ->
  is_conservative <> 0%Z ->
  contains (boxArray umac) i j = true ->
  let s := array s_mf state_comp in
  let hx := CellSize_x geom in
  let hy := CellSize_y geom in
  let slope :=
    fab (ComputeSlopes s_mf geom (mkMultiFab (boxArray s_mf) slope0)
           state_comp sint0) in
  x_vdif s slope (array umac 0) (array vmac 0) hx hy dt i j == 0 /\
  x_vaddif s slope (array umac 0) hx dt i j == 0 /\
  x_divu (array umac 0) (array vmac 0) hx hy i j == 0 /\
  exists xe ye,
    ComputeEdgeState s_mf state_comp geom xedge yedge edge_comp umac vmac fq
      fq_comp is_conservative dt slope0 sint0 = Return _ (xe, ye) /\
    array xe edge_comp i j == s i j - (1 # 2) * hx * slope i j 0%Z.
Proof.
  intros Hu Hv Hf Hc Hin s hx hy slope.
  destruct (x_terms_no_flow s slope (array umac 0) (array vmac 0) hx hy dt
              i j Hu Hv) as (H1 & H2 & H3 & _).
  split; [exact H1 |]. split; [exact H2 |]. split; [exact H3 |].
  unfold ComputeEdgeState.
  destruct (Z.eqb_spec is_conservative 0) as [E | _]; [contradiction |].
  unfold ComputeConc. eexists; eexists. split; [reflexivity |].
  rewrite array_write_comp, ParallelFor_inside by exact Hin.
  apply x_edge_kernel_no_flow; assumption.
Qed.

Lemma no_flow_xedge_witness :
  exists xe ye,
    ComputeEdgeState (Inputs.mf_of Inputs.cells Inputs.delta) 0%Z
      Inputs.unit_geom
      (Inputs.mf_of (xface_box Inputs.cells) (Inputs.const_field 0))
      (Inputs.mf_of (yface_box Inputs.cells) (Inputs.const_field 0)) 0%Z
      (Inputs.mf_of (xface_box Inputs.cells) (Inputs.const_field 0))
      (Inputs.mf_of (yface_box Inputs.cells) (Inputs.const_field 0))
      (Inputs.mf_of Inputs.cells (Inputs.const_field 0)) 0%Z 1%Z (1 # 10)
      (fun _ _ _ => 0) (fun _ _ => 0) = Return _ (xe, ye) /\
    array xe 0%Z 2%Z 1%Z
    == array (Inputs.mf_of Inputs.cells Inputs.delta) 0%Z 2%Z 1%Z
       - (1 # 2) * CellSize_x Inputs.unit_geom
         * fab (ComputeSlopes (Inputs.mf_of Inputs.cells Inputs.delta)
                  Inputs.unit_geom
                  (mkMultiFab
                     (boxArray (Inputs.mf_of Inputs.cells Inputs.delta))
                     (fun _ _ _ => 0)) 0%Z
                  (fun _ _ => 0)) 2%Z 1%Z 0%Z.
Proof.
  refine (proj2 (proj2 (proj2
    (no_flow_xedge (Inputs.mf_of Inputs.cells Inputs.delta) 0%Z
      Inputs.unit_geom
      (Inputs.mf_of (xface_box Inputs.cells) (Inputs.const_field 0))
      (Inputs.mf_of (yface_box Inputs.cells) (Inputs.const_field 0)) 0%Z
      (Inputs.mf_of (xface_box Inputs.cells) (Inputs.const_field 0))
      (Inputs.mf_of (yface_box Inputs.cells) (Inputs.const_field 0))
      (Inputs.mf_of Inputs.cells (Inputs.const_field 0)) 0%Z 1%Z (1 # 10)
      (fun _ _ _ => 0) (fun _ _ => 0) 2%Z 1%Z _ _ _ _ _)))).
  - intros i j. reflexivity.
  - intros i j. reflexivity.
  - intros i j. reflexivity.
  - discriminate.
  - reflexivity.
Defined.

(** C8 (as stated) fails.  State [delta] (144 in cell [(1,1)]), no flow,
    no forcing, unit cells: the limiter leaves no slope in the cells [(1,1)]
    and [(2,1)], the edge state on the x-face [(2,1)] is [s(2,1) = 0], and
    the trace from the low side, [s(1,1) + hx/2 sx(1,1)], is 144.  Binary64
    computes the same edge state. *)
Lemma no_flow_xedge_counterexample :
  let s_mf : MultiFab Q := Inputs.mf_of Inputs.cells Inputs.delta in
  let zero_x : MultiFab Q :=
    Inputs.mf_of (xface_box Inputs.cells) (Inputs.const_field 0) in
  let zero_y : MultiFab Q :=
    Inputs.mf_of (yface_box Inputs.cells) (Inputs.const_field 0) in
  let zero_c : MultiFab Q :=
    Inputs.mf_of Inputs.cells (Inputs.const_field 0) in
  let slope :=
    fab (ComputeSlopes s_mf Inputs.unit_geom
           (mkMultiFab Inputs.cells (fun _ _ _ => 0)) 0%Z (fun _ _ => 0)) in
  exists xe ye,
    ComputeEdgeState s_mf 0%Z Inputs.unit_geom zero_x zero_y 0%Z
      zero_x zero_y zero_c 0%Z 1%Z (1 # 10) (fun _ _ _ => 0) (fun _ _ => 0)
    = Return _ (xe, ye) /\
    contains (boxArray zero_x) 2%Z 1%Z = true /\
    array xe 0%Z 2%Z 1%Z == 0 /\
    array s_mf 0%Z 1%Z 1%Z + (1 # 2) * 1 * slope 1%Z 1%Z 0%Z == 144 /\
    ~ (array xe 0%Z 2%Z 1%Z
       == array s_mf 0%Z 1%Z 1%Z + (1 # 2) * 1 * slope 1%Z 1%Z 0%Z) /\
    exists xe' ye',
      ComputeEdgeState (T := B64.t)
        (Inputs.mf_of Inputs.cells Inputs.delta) 0%Z Inputs.unit_geom
        (Inputs.mf_of (xface_box Inputs.cells) (Inputs.const_field (rlit 0)))
        (Inputs.mf_of (yface_box Inputs.cells) (Inputs.const_field (rlit 0)))
        0%Z
        (Inputs.mf_of (xface_box Inputs.cells) (Inputs.const_field (rlit 0)))
        (Inputs.mf_of (yface_box Inputs.cells) (Inputs.const_field (rlit 0)))
        (Inputs.mf_of Inputs.cells (Inputs.const_field (rlit 0))) 0%Z 1%Z
        (rlit (1 # 10)) (fun _ _ _ => S754_nan) (fun _ _ => S754_nan)
      = Return _ (xe', ye') /\
      array xe' 0%Z 2%Z 1%Z = B64.pzero.
Proof.
  cbv zeta. eexists; eexists. split; [reflexivity |].
  split; [reflexivity |]. split; [vm_compute; reflexivity |].
  split; [vm_compute; reflexivity |]. split.
  - intros H. vm_compute in H. discriminate H.
  - eexists; eexists. split; [reflexivity |]. vm_compute. reflexivity.
Qed.

End NoFlowDriver.

(** ** Transverse-term boundary conditions *)

Section TransBC.

Import GodunovTransBC.

Context {T : Type} {RA : RealArith T}.

Variable bc : BCType.

(** X1.  The three routines are one routine: the y- and z-routines are the
    x-routine applied to the array with the index of their direction moved
    to the front (and their own velocity component in place of [XVEL]). *)
Theorem SetTransTermBCs_agree (vel i j k n : Z) (s : Array4kn T) (lo hi : T)
  (bclo bchi domlo domhi : Z) (is_velocity : bool) :
  SetTransTermYBCs bc vel i j k n s lo hi bclo bchi domlo domhi is_velocity
  = SetTransTermXBCs bc vel j i k n (fun a b c m => s b a c m) lo hi
      bclo bchi domlo domhi is_velocity /\
  SetTransTermZBCs bc vel i j k n s lo hi bclo bchi domlo domhi is_velocity
  = SetTransTermXBCs bc vel k j i n (fun a b c m => s c b a m) lo hi
      bclo bchi domlo domhi is_velocity.
Proof. split; reflexivity. Qed.

Lemma SetTransTermXBCs_idem (xvel i j k n : Z) (s : Array4kn T) (lo hi : T)
  (bclo bchi domlo domhi : Z) (is_velocity : bool) :
  let r := SetTransTermXBCs bc xvel i j k n s lo hi bclo bchi domlo domhi
             is_velocity in
  SetTransTermXBCs bc xvel i j k n s (fst r) (snd r) bclo bchi domlo domhi
    is_velocity = r.
Proof.
  cbv zeta. unfold SetTransTermXBCs.
  destruct (i <=? domlo); [| destruct (domhi <? i)];
    repeat match goal with
    | |- context [if ?b then _ else _] => destruct b
    end; reflexivity.
Qed.

(** X2.  Each routine is idempotent: applied to the pair it has produced,
    it returns that pair. *)
Theorem SetTransTermBCs_idempotent (vel i j k n : Z) (s : Array4kn T)
  (lo hi : T) (bclo bchi domlo domhi : Z) (is_velocity : bool) :
  (let r := SetTransTermXBCs bc vel i j k n s lo hi bclo bchi domlo domhi
              is_velocity in
   SetTransTermXBCs bc vel i j k n s (fst r) (snd r) bclo bchi domlo domhi
     is_velocity = r) /\
  (let r := SetTransTermYBCs bc vel i j k n s lo hi bclo bchi domlo domhi
              is_velocity in
   SetTransTermYBCs bc vel i j k n s (fst r) (snd r) bclo bchi domlo domhi
     is_velocity = r) /\
  (let r := SetTransTermZBCs bc vel i j k n s lo hi bclo bchi domlo domhi
              is_velocity in
   SetTransTermZBCs bc vel i j k n s (fst r) (snd r) bclo bchi domlo domhi
     is_velocity = r).
Proof.
  split; [apply SetTransTermXBCs_idem |].
  split.
  - apply (SetTransTermXBCs_idem vel j i k n (fun a b c m => s b a c m)).
  - apply (SetTransTermXBCs_idem vel k j i n (fun a b c m => s c b a m)).
Qed.

(** X3.  What the x-routine leaves on or beyond a boundary of the domain,
    by the type of the boundary that applies ([bclo] on or below [domlo],
    [bchi] above [domhi]).  Extrapolation and even reflection copy the inner
    state of the pair over the outer one, odd reflection sets both to zero,
    a Dirichlet boundary puts the value behind the boundary into the outer
    state and, for the normal velocity only, into the inner one as well.
    So the pair is left without jump in every case but the Dirichlet
    boundary of a quantity that is not the normal velocity. *)
Theorem SetTransTermXBCs_at_wall (xvel i j k n : Z) (s : Array4kn T) (lo hi : T)
  (bclo bchi domlo domhi : Z) (is_velocity : bool) :
  ext_dir bc <> foextrap bc -> ext_dir bc <> hoextrap bc ->
  ext_dir bc <> reflect_even bc -> ext_dir bc <> reflect_odd bc ->
  reflect_odd bc <> foextrap bc -> reflect_odd bc <> hoextrap bc ->
  reflect_odd bc <> reflect_even bc ->
  (i <= domlo \/ domhi < i)%Z ->
  let b := if (i <=? domlo)%Z then bclo else bchi in
  let ghost := if (i <=? domlo)%Z then s (domlo - 1)%Z j k n
               else s (domhi + 1)%Z j k n in
  let inner := if (i <=? domlo)%Z then hi else lo in
  let r := SetTransTermXBCs bc xvel i j k n s lo hi bclo bchi domlo domhi
             is_velocity in
  (b = foextrap bc \/ b = hoextrap bc \/ b = reflect_even bc ->
   r = (inner, inner)) /\
  (b = reflect_odd bc -> r = (rlit 0, rlit 0)) /\
  (b = ext_dir bc -> n = xvel -> is_velocity = true -> r = (ghost, ghost)) /\
  (b = ext_dir bc -> (n <> xvel \/ is_velocity = false) ->
   r = if (i <=? domlo)%Z then (ghost, hi) else (lo, ghost)).
Proof.
  intros D1 D2 D3 D4 D5 D6 D7 Hwall. cbv zeta. unfold SetTransTermXBCs.
  destruct (Z.leb_spec i domlo) as [Hlo | Hlo].
  - repeat split.
    + intros Hb.
      destruct (Z.eqb_spec bclo (ext_dir bc)) as [E | _];
        [destruct Hb as [-> | [-> | ->]]; congruence |].
      destruct (Z.eqb_spec bclo (foextrap bc)),
        (Z.eqb_spec bclo (hoextrap bc)),
        (Z.eqb_spec bclo (reflect_even bc)); cbn; try reflexivity.
      destruct Hb as [? | [? | ?]]; contradiction.
    + intros ->.
      destruct (Z.eqb_spec (reflect_odd bc) (ext_dir bc)); [congruence |].
      destruct (Z.eqb_spec (reflect_odd bc) (foextrap bc)); [congruence |].
      destruct (Z.eqb_spec (reflect_odd bc) (hoextrap bc)); [congruence |].
      destruct (Z.eqb_spec (reflect_odd bc) (reflect_even bc));
        [congruence |].
      cbn. now rewrite Z.eqb_refl.
    + intros -> -> ->. now rewrite !Z.eqb_refl.
    + intros -> Hn. rewrite Z.eqb_refl.
      destruct Hn as [Hn | ->].
      * apply Z.eqb_neq in Hn. now rewrite Hn.
      * now rewrite Bool.andb_false_r.
  - assert (H : (domhi <? i)%Z = true) by (apply Z.ltb_lt; lia).
    rewrite H. repeat split.
    + intros Hb.
      destruct (Z.eqb_spec bchi (ext_dir bc)) as [E | _];
        [destruct Hb as [-> | [-> | ->]]; congruence |].
      destruct (Z.eqb_spec bchi (foextrap bc)),
        (Z.eqb_spec bchi (hoextrap bc)),
        (Z.eqb_spec bchi (reflect_even bc)); cbn; try reflexivity.
      destruct Hb as [? | [? | ?]]; contradiction.
    + intros ->.
      destruct (Z.eqb_spec (reflect_odd bc) (ext_dir bc)); [congruence |].
      destruct (Z.eqb_spec (reflect_odd bc) (foextrap bc)); [congruence |].
      destruct (Z.eqb_spec (reflect_odd bc) (hoextrap bc)); [congruence |].
      destruct (Z.eqb_spec (reflect_odd bc) (reflect_even bc));
        [congruence |].
      cbn. now rewrite Z.eqb_refl.
    + intros -> -> ->. now rewrite !Z.eqb_refl.
    + intros -> Hn. rewrite Z.eqb_refl.
      destruct Hn as [Hn | ->].
      * apply Z.eqb_neq in Hn. now rewrite Hn.
      * now rewrite Bool.andb_false_r.
Qed.

End TransBC.

Section TransBCRun.

Import GodunovTransBC.

Local Open Scope Q_scope.

(** The codes of AMReX, a face on the low boundary of the domain [0..9],
    which extrapolates; the high boundary is a Dirichlet one. *)
Lemma SetTransTermXBCs_at_wall_witness :
  SetTransTermXBCs amrex_BCType XVEL 0 5 0 1 (fun _ _ _ _ => 7) 1 2
    (foextrap amrex_BCType) (ext_dir amrex_BCType) 0 9 false
  = (2, 2).
Proof.
  refine (proj1 (SetTransTermXBCs_at_wall amrex_BCType XVEL 0 5 0 1
                   (fun _ _ _ _ => 7) 1 2 (foextrap amrex_BCType)
                   (ext_dir amrex_BCType) 0 9 false _ _ _ _ _ _ _ _) _);
    try (intro H; discriminate H).
  - left. apply Z.le_refl.
  - left. reflexivity.
Defined.

End TransBCRun.

(** ** The reconstruction the limited slopes stand for *)

Section Reconstruction.

Local Open Scope Q_scope.

Variables (s : Array4 Q) (hx hy : Q) (i j : Z).

Lemma final_slopes_corner_values (sl : Slopes Q) :
  ~ hx == 0 -> ~ hy == 0 ->
  let sl' := final_slopes (corner_values s sl hx hy i j) hx hy in
  sx sl' == sx sl /\ sy sl' == sy sl /\ sxy sl' == sxy sl.
Proof.
  intros Hx Hy. cbv zeta.
  unfold final_slopes, corner_values. cbn [get sx sy sxy a1 a2 a3 a4]. qred.
  split; [| split]; field; auto.
Qed.

Lemma corner_values_final_slopes (sc : Array1D Q) :
  ~ hx == 0 -> ~ hy == 0 ->
  let sc' := corner_values s (final_slopes sc hx hy) hx hy i j in
  let d := Spec.defect (s i j) sc / 4 in
  a1 sc' == a1 sc - d /\ a2 sc' == a2 sc - d /\
  a3 sc' == a3 sc - d /\ a4 sc' == a4 sc - d.
Proof.
  intros Hx Hy. cbv zeta.
  unfold final_slopes, corner_values, Spec.defect.
  cbn [get sx sy sxy a1 a2 a3 a4]. qred.
  split; [| split; [| split]]; field; auto.
Qed.


End Reconstruction.

Section ReconstructionRun.

Local Open Scope Q_scope.


End ReconstructionRun.

Section LimitedReconstruction.

Local Open Scope Q_scope.

Variables (s sint : Array4 Q) (hx hy : Q) (i j : Z).


(** A sweep on corner values with no defect changes nothing. *)
Lemma limiter_sweep_fixed (sij : Q) (smin smax sc : Array1D Q) :
  Spec.in_envelope smin smax sc ->
  Spec.defect sij sc == 0 ->
  let sc' := limiter_sweep sij smin smax sc in
  a1 sc' == a1 sc /\ a2 sc' == a2 sc /\ a3 sc' == a3 sc /\ a4 sc' == a4 sc.
Proof.
  intros Henv H0.
  destruct (limiter_sweep_step sij smin smax sc Henv)
    as (_ & (M1 & M2 & M3 & M4) & _ & D' & _).
  cbv zeta in M1, M2, M3, M4, D' |- *.
  revert M1 M2 M3 M4 D'.
  generalize (limiter_sweep sij smin smax sc). intros sc' M1 M2 M3 M4 D'.
  unfold Spec.defect in *.
  destruct (sweep_sgndif_cases sij sc) as [[HD E] | [HD E]];
    rewrite E in *; unfold Spec.defect in HD;
    (split; [| split; [| split]]); lra.
Qed.

Lemma sweeps_fixed (n : nat) (sij : Q) (smin smax sc : Array1D Q) :
  Spec.in_envelope smin smax sc ->
  Spec.defect sij sc == 0 ->
  let sc' := sweeps n sij smin smax sc in
  Spec.in_envelope smin smax sc' /\ Spec.defect sij sc' == 0 /\
  a1 sc' == a1 sc /\ a2 sc' == a2 sc /\ a3 sc' == a3 sc /\ a4 sc' == a4 sc.
Proof.
  intros Henv H0. cbv zeta. induction n as [| n IH]; cbn [sweeps].
  - repeat split; try reflexivity; try apply Henv; exact H0.
  - destruct IH as (E & D & I1 & I2 & I3 & I4).
    destruct (limiter_sweep_fixed sij smin smax _ E D) as (F1 & F2 & F3 & F4).
    cbv zeta in F1, F2, F3, F4.
    split; [apply limiter_sweep_step, E |].
    revert F1 F2 F3 F4.
    generalize (limiter_sweep sij smin smax (sweeps n sij smin smax sc)).
    intros sc' F1 F2 F3 F4. unfold Spec.defect in *.
    split; [lra |]. split; [lra |]. split; [lra |]. split; lra.
Qed.

Lemma clamp_inside (c m M : Q) :
  m <= c <= M -> rmax (rmin c M) m == c.
Proof.
  intros H. unfold rmax, rmin. qred.
  destruct (Qltb M c) eqn:E1; [apply Qltb_lt in E1 | apply Qltb_ge in E1];
    qcases; lra.
Qed.

(** Slopes whose corner values lie inside the envelope pass the limiter
    unchanged. *)
Lemma limited_corners_admissible (n : nat) :
  Spec.in_envelope (corner_smin s i j) (corner_smax s i j)
    (corner_values s (unlimited_slopes sint hx hy i j) hx hy i j) ->
  let sc := corner_values s (unlimited_slopes sint hx hy i j) hx hy i j in
  let sc' := limited_corners n s sint hx hy i j in
  a1 sc' == a1 sc /\ a2 sc' == a2 sc /\ a3 sc' == a3 sc /\ a4 sc' == a4 sc.
Proof.
  intros Henv. cbv zeta. unfold limited_corners.
  pose proof (corner_values_defect s hx hy i j (unlimited_slopes sint hx hy i j))
    as H0.
  revert Henv H0.
  generalize (corner_values s (unlimited_slopes sint hx hy i j) hx hy i j).
  intros sc (E1 & E2 & E3 & E4) H0.
  pose proof (clamp_envelope (s i j) _ _ (corner_bounds_contain s i j) sc)
    as Hc.
  assert (K : a1 (clamp_corners sc (corner_smin s i j) (corner_smax s i j)) == a1 sc /\
              a2 (clamp_corners sc (corner_smin s i j) (corner_smax s i j)) == a2 sc /\
              a3 (clamp_corners sc (corner_smin s i j) (corner_smax s i j)) == a3 sc /\
              a4 (clamp_corners sc (corner_smin s i j) (corner_smax s i j)) == a4 sc).
  { rewrite clamp_corners_values. cbn [a1 a2 a3 a4].
    repeat split; apply clamp_inside; assumption. }
  revert Hc K.
  generalize (clamp_corners sc (corner_smin s i j) (corner_smax s i j)).
  intros sc0 Hc (K1 & K2 & K3 & K4).
  assert (D0 : Spec.defect (s i j) sc0 == 0)
    by (unfold Spec.defect in *; lra).
  destruct (sweeps_fixed n (s i j) _ _ sc0 Hc D0) as (_ & _ & F1 & F2 & F3 & F4).
  cbv zeta in F1, F2, F3, F4.
  split; [lra |]. split; [lra |]. split; lra.
Qed.



Lemma rmax4_le (a b c d m : Q) :
  a <= m -> b <= m -> c <= m -> d <= m -> rmax4 a b c d <= m.
Proof.
  intros. destruct (rmax4_bounds a b c d)
    as (_ & _ & _ & _ & [H' | [H' | [H' | H']]]); rewrite H'; assumption.
Qed.

Lemma rmin4_ge (a b c d m : Q) :
  m <= a -> m <= b -> m <= c -> m <= d -> m <= rmin4 a b c d.
Proof.
  intros. destruct (rmin4_bounds a b c d)
    as (_ & _ & _ & _ & [H' | [H' | [H' | H']]]); rewrite H'; assumption.
Qed.


End LimitedReconstruction.

Section LimitedReconstructionRuns.

Local Open Scope Q_scope.




End LimitedReconstructionRuns.

(** ** The y-faces are the x-faces of the transposed problem *)

Section MirrorFaces.

Local Open Scope Q_scope.

Import Mirror.

Variables (s : Array4 Q) (slope : Array4n Q) (uadv vadv force : Array4 Q).
Variables (hx hy dt : Q) (i j : Z).

Lemma y_edge_kernel_mirror :
  y_edge_kernel s slope uadv vadv force hx hy dt i j
  == x_edge_kernel (transpose s) (transpose_slope slope) (transpose vadv)
       (transpose uadv) (transpose force) hy hx dt j i.
Proof.
  unfold y_edge_kernel, x_edge_kernel, x_vdif, x_vaddif, x_stem, x_divu,
    y_gamp, x_gamp, y_gamm, x_gamm, y_gamma, x_gamma, y_donor, x_donor,
    transpose, transpose_slope, swap_xy.
  qred. cbv beta iota zeta.
  qsplit; unfold Qdiv; generalize (/ hx) (/ hy); intros; ring.
Qed.


End MirrorFaces.

(** ** Linear states *)

Ltac push_inject :=
  unfold Z.sub; rewrite ?inject_Z_plus, ?inject_Z_opp;
  change (inject_Z 1) with 1%Q; change (inject_Z 2) with 2%Q.

Section LinearCell.

Local Open Scope Q_scope.

Variables (a b c hx hy : Q).
Variables (s sint : Array4 Q).
Hypothesis Hs : forall i j, s i j == Linear.field a b c hx hy i j.

Lemma sint_kernel_linear (i j : Z) :
  sint_kernel s i j == Linear.at_corner a b c hx hy i j.
Proof.
  unfold sint_kernel. qred. rewrite !Hs.
  unfold Linear.field, Linear.at_corner. push_inject. field.
Qed.

Variables (i j : Z).
Hypothesis Hx : ~ hx == 0.
Hypothesis Hy : ~ hy == 0.
Hypothesis Hsint :
  forall i' j', (i <= i' <= i + 1)%Z -> (j <= j' <= j + 1)%Z ->
                sint i' j' == Linear.at_corner a b c hx hy i' j'.

Lemma unlimited_slopes_linear :
  let sl := unlimited_slopes sint hx hy i j in
  sx sl == a /\ sy sl == b /\ sxy sl == 0.
Proof.
  cbv zeta. unfold unlimited_slopes. cbn [sx sy sxy]. qred.
  rewrite !Hsint by lia.
  unfold Linear.at_corner. push_inject.
  split; [| split]; field; auto.
Qed.

Lemma corner_values_linear :
  Spec.in_envelope (corner_smin s i j) (corner_smax s i j)
    (corner_values s (unlimited_slopes sint hx hy i j) hx hy i j).
Proof.
  destruct unlimited_slopes_linear as (S1 & S2 & S3).
  cbv zeta in S1, S2, S3. revert S1 S2 S3.
  generalize (unlimited_slopes sint hx hy i j). intros sl S1 S2 S3.
  unfold Spec.in_envelope, corner_values, corner_smin, corner_smax.
  cbn [a1 a2 a3 a4]. qred. rewrite S1, S2, S3.
  pose proof (Hs i j) as C00. pose proof (Hs (i+1)%Z j) as C10.
  pose proof (Hs (i-1)%Z j) as M10. pose proof (Hs i (j+1)%Z) as C01.
  pose proof (Hs i (j-1)%Z) as M01. pose proof (Hs (i+1)%Z (j+1)%Z) as C11.
  pose proof (Hs (i-1)%Z (j-1)%Z) as M11.
  pose proof (Hs (i+1)%Z (j-1)%Z) as CM. pose proof (Hs (i-1)%Z (j+1)%Z) as MC.
  unfold Linear.field in *.
  revert C00 C10 M10 C01 M01 C11 M11 CM MC. push_inject.
  generalize (inject_Z i) (inject_Z j). intros x y.
  generalize (s i j) (s (i + 1)%Z j) (s (i + - (1))%Z j) (s i (j + 1)%Z)
    (s i (j + - (1))%Z) (s (i + 1)%Z (j + 1)%Z) (s (i + - (1))%Z (j + - (1))%Z)
    (s (i + 1)%Z (j + - (1))%Z) (s (i + - (1))%Z (j + 1)%Z).
  intros s00 s10 m10 s01 m01 s11 m11 sm ms.
  intros C00 C10 M10 C01 M01 C11 M11 CM MC.
  generalize (rmin4_bounds s00 m10 m01 m11) (rmax4_bounds s00 m10 m01 m11)
    (rmin4_bounds s00 m10 s01 ms) (rmax4_bounds s00 m10 s01 ms)
    (rmin4_bounds s00 s10 m01 sm) (rmax4_bounds s00 s10 m01 sm)
    (rmin4_bounds s00 s10 s01 s11) (rmax4_bounds s00 s10 s01 s11).
  generalize (rmin4 s00 m10 m01 m11) (rmax4 s00 m10 m01 m11)
    (rmin4 s00 m10 s01 ms) (rmax4 s00 m10 s01 ms)
    (rmin4 s00 s10 m01 sm) (rmax4 s00 s10 m01 sm)
    (rmin4 s00 s10 s01 s11) (rmax4 s00 s10 s01 s11).
  intros n1 x1 n2 x2 n3 x3 n4 x4.
  intros (A1 & A2 & A3 & A4 & _) (B1 & B2 & B3 & B4 & _)
         (A5 & A6 & A7 & A8 & _) (B5 & B6 & B7 & B8 & _)
         (A9 & A10 & A11 & A12 & _) (B9 & B10 & B11 & B12 & _)
         (A13 & A14 & A15 & A16 & _) (B13 & B14 & B15 & B16 & _).
  repeat split; lra.
Qed.

Lemma slope_kernel_linear :
  let sl := slope_kernel s sint hx hy i j in
  sx sl == a /\ sy sl == b /\ sxy sl == 0.
Proof.
  destruct (limited_corners_admissible s sint hx hy i j 3 corner_values_linear)
    as (F1 & F2 & F3 & F4).
  destruct (final_slopes_corner_values s hx hy i j
              (unlimited_slopes sint hx hy i j) Hx Hy) as (R1 & R2 & R3).
  destruct unlimited_slopes_linear as (S1 & S2 & S3).
  cbv zeta in F1, F2, F3, F4, R1, R2, R3, S1, S2, S3 |- *.
  unfold slope_kernel. change limit_slopes with true. cbv iota.
  revert F1 F2 F3 F4 R1 R2 R3.
  generalize (limited_corners 3 s sint hx hy i j)
             (corner_values s (unlimited_slopes sint hx hy i j) hx hy i j).
  intros sc' sc F1 F2 F3 F4.
  unfold final_slopes. cbn [get sx sy sxy]. qred.
  intros R1 R2 R3.
  rewrite <- S1, <- S2, <- S3, <- R1, <- R2, <- R3, F1, F2, F3, F4.
  split; [reflexivity |]. split; reflexivity.
Qed.

End LinearCell.

Section LinearFaces.

Local Open Scope Q_scope.

Variables (a b c hx hy : Q).
Variables (s : Array4 Q) (slope : Array4n Q) (uadv vadv force : Array4 Q).
Variables (U V F dt : Q).
Hypothesis Hs : forall i j, s i j == Linear.field a b c hx hy i j.
Hypothesis Hu : forall i j, uadv i j == U.
Hypothesis Hv : forall i j, vadv i j == V.
Hypothesis Hf : forall i j, force i j == F.
Hypothesis Hx : ~ hx == 0.
Hypothesis Hy : ~ hy == 0.

Lemma x_edge_kernel_linear (i j : Z) :
  (forall i' j', (i - 1 <= i' <= i)%Z -> (j - 1 <= j' <= j + 1)%Z ->
                 slope i' j' 0%Z == a) ->
  (forall i' j', (i - 1 <= i' <= i)%Z -> (j - 1 <= j' <= j + 1)%Z ->
                 slope i' j' 1%Z == b) ->
  (forall i' j', (i - 1 <= i' <= i)%Z -> (j - 1 <= j' <= j + 1)%Z ->
                 slope i' j' 2%Z == 0) ->
  x_edge_kernel s slope uadv vadv force hx hy dt i j
  == Linear.at_xface a b c hx hy i j - (dt / 2) * (U * a + V * b)
     + (dt / 2) * F.
Proof.
  intros Sx Sy Sxy.
  unfold x_edge_kernel, x_vdif, x_vaddif, x_stem, x_divu, x_gamp, x_gamm,
    x_gamma, x_donor.
  qred. cbv beta iota zeta.
  qsplit;
    repeat match goal with
    | H : context [uadv _ _] |- _ => rewrite !Hu in H
    | H : context [vadv _ _] |- _ => rewrite !Hv in H
    end;
    try (exfalso; nra);
    rewrite ?Hu, ?Hv, ?Hf, ?Hs, ?Sx, ?Sy, ?Sxy by lia;
    unfold Linear.field, Linear.at_xface; push_inject;
    try (assert (U0 : U == 0) by nra; rewrite U0);
    field; auto.
Qed.

End LinearFaces.


Section LinearYFaces.

Local Open Scope Q_scope.

Variables (a b c hx hy : Q).
Variables (s : Array4 Q) (slope : Array4n Q) (uadv vadv force : Array4 Q).
Variables (U V F dt : Q).
Hypothesis Hs : forall i j, s i j == Linear.field a b c hx hy i j.
Hypothesis Hu : forall i j, uadv i j == U.
Hypothesis Hv : forall i j, vadv i j == V.
Hypothesis Hf : forall i j, force i j == F.
Hypothesis Hx : ~ hx == 0.
Hypothesis Hy : ~ hy == 0.

(** The y-faces, through the transposed problem. *)
Lemma y_edge_kernel_linear (i j : Z) :
  (forall i' j', (i - 1 <= i' <= i + 1)%Z -> (j - 1 <= j' <= j)%Z ->
                 slope i' j' 0%Z == a) ->
  (forall i' j', (i - 1 <= i' <= i + 1)%Z -> (j - 1 <= j' <= j)%Z ->
                 slope i' j' 1%Z == b) ->
  (forall i' j', (i - 1 <= i' <= i + 1)%Z -> (j - 1 <= j' <= j)%Z ->
                 slope i' j' 2%Z == 0) ->
  y_edge_kernel s slope uadv vadv force hx hy dt i j
  == Linear.at_yface a b c hx hy i j - (dt / 2) * (U * a + V * b)
     + (dt / 2) * F.
Proof.
  intros Sx Sy Sxy.
  rewrite y_edge_kernel_mirror.
  rewrite (x_edge_kernel_linear b a c hy hx (Mirror.transpose s)
             (Mirror.transpose_slope slope) (Mirror.transpose vadv)
             (Mirror.transpose uadv) (Mirror.transpose force) V U F dt).
  - unfold Linear.at_xface, Linear.at_yface. field.
  - intros i' j'. unfold Mirror.transpose. rewrite Hs.
    unfold Linear.field. ring.
  - intros i' j'. apply Hv.
  - intros i' j'. apply Hu.
  - intros i' j'. apply Hf.
  - exact Hy.
  - exact Hx.
  - intros i' j' Hi Hj. apply Sy; assumption.
  - intros i' j' Hi Hj. apply Sx; assumption.
  - intros i' j' Hi Hj. apply Sxy; assumption.
Qed.

End LinearYFaces.

Section LinearDriver.

Local Open Scope Q_scope.

Variables (s_mf : MultiFab Q) (state_comp : Z) (geom : Geometry Q).
Variables (xedge yedge : MultiFab Q) (edge_comp : Z).
Variables (umac vmac fq : MultiFab Q) (fq_comp is_conservative : Z).
Variables (dt : Q) (slope0 : Array4n Q) (sint0 : Array4 Q).


End LinearDriver.

(** ** What the edge states depend on *)

Section Reach.

Context {T : Type} {RA : RealArith T}.

Lemma sint_kernel_ext (s s' : Array4 T) (i j : Z) :
  (forall i' j', i - 2 <= i' <= i + 1 -> j - 2 <= j' <= j + 1 ->
                 s i' j' = s' i' j') ->
  sint_kernel s i j = sint_kernel s' i j.
Proof.
  intros Hs. unfold sint_kernel. rewrite !Hs by lia. reflexivity.
Qed.

Lemma slope_kernel_ext (s s' sint sint' : Array4 T) (hx hy : T) (i j : Z) :
  (forall i' j', i - 1 <= i' <= i + 1 -> j - 1 <= j' <= j + 1 ->
                 s i' j' = s' i' j') ->
  (forall i' j', i <= i' <= i + 1 -> j <= j' <= j + 1 ->
                 sint i' j' = sint' i' j') ->
  slope_kernel s sint hx hy i j = slope_kernel s' sint' hx hy i j.
Proof.
  intros Hs Hsint.
  unfold slope_kernel, limited_corners, unlimited_slopes, corner_values,
    corner_smin, corner_smax.
  rewrite !Hs, !Hsint by lia. reflexivity.
Qed.

Ltac follow_tests Hu Hv :=
  repeat (rewrite ?Hu, ?Hv by lia;
          match goal with
          | |- context [rltb ?a ?b] => destruct (rltb a b)
          end; cbv beta iota zeta).

Lemma x_edge_kernel_ext (s s' : Array4 T) (slope slope' : Array4n T)
  (uadv uadv' vadv vadv' force force' : Array4 T) (hx hy dt : T) (i j : Z) :
  (forall i' j', i - 1 <= i' <= i -> j - 1 <= j' <= j + 1 ->
                 s i' j' = s' i' j') ->
  (forall i' j' n, i - 1 <= i' <= i -> j - 1 <= j' <= j + 1 ->
                   slope i' j' n = slope' i' j' n) ->
  (forall i' j', i - 1 <= i' <= i + 1 -> j - 1 <= j' <= j + 1 ->
                 uadv i' j' = uadv' i' j') ->
  (forall i' j', i - 1 <= i' <= i -> j <= j' <= j + 1 ->
                 vadv i' j' = vadv' i' j') ->
  (forall i' j', i - 1 <= i' <= i -> j' = j -> force i' j' = force' i' j') ->
  x_edge_kernel s slope uadv vadv force hx hy dt i j
  = x_edge_kernel s' slope' uadv' vadv' force' hx hy dt i j.
Proof.
  intros Hs Hsl Hu Hv Hf.
  unfold x_edge_kernel, x_vdif, x_vaddif, x_stem, x_divu, x_gamp, x_gamm,
    x_gamma, x_donor.
  cbv beta iota zeta.
  follow_tests Hu Hv;
    rewrite ?Hu, ?Hv, ?Hs, ?Hsl, ?Hf by lia; reflexivity.
Qed.

Lemma y_edge_kernel_ext (s s' : Array4 T) (slope slope' : Array4n T)
  (uadv uadv' vadv vadv' force force' : Array4 T) (hx hy dt : T) (i j : Z) :
  (forall i' j', i - 1 <= i' <= i + 1 -> j - 1 <= j' <= j ->
                 s i' j' = s' i' j') ->
  (forall i' j' n, i - 1 <= i' <= i + 1 -> j - 1 <= j' <= j ->
                   slope i' j' n = slope' i' j' n) ->
  (forall i' j', i <= i' <= i + 1 -> j - 1 <= j' <= j ->
                 uadv i' j' = uadv' i' j') ->
  (forall i' j', i - 1 <= i' <= i + 1 -> j - 1 <= j' <= j + 1 ->
                 vadv i' j' = vadv' i' j') ->
  (forall i' j', i' = i -> j - 1 <= j' <= j -> force i' j' = force' i' j') ->
  y_edge_kernel s slope uadv vadv force hx hy dt i j
  = y_edge_kernel s' slope' uadv' vadv' force' hx hy dt i j.
Proof.
  intros Hs Hsl Hu Hv Hf.
  unfold y_edge_kernel, y_gamp, y_gamm, y_gamma, y_donor.
  cbv beta iota zeta.
  follow_tests Hu Hv;
    rewrite ?Hu, ?Hv, ?Hs, ?Hsl, ?Hf by lia; reflexivity.
Qed.

Lemma ComputeSlopes_at (s_mf : MultiFab T) (geom : Geometry T)
  (slope_mf : MultiFab T) (state_comp : Z) (sint0 : Array4 T) (i j n : Z) :
  contains (grow (boxArray s_mf) 1) i j = true ->
  fab (ComputeSlopes s_mf geom slope_mf state_comp sint0) i j n
  = slope_comp
      (slope_kernel (array s_mf state_comp)
         (ComputeSlopes_sint s_mf state_comp sint0)
         (CellSize_x geom) (CellSize_y geom) i j) n.
Proof.
  intros Hin. unfold ComputeSlopes. cbn [fab].
  now rewrite ParallelFor_n_inside.
Qed.

(** The slopes of two runs agree on the cells around the valid box when
    the states agree three cells around it. *)
Lemma ComputeSlopes_ext (s_mf s_mf' : MultiFab T) (geom : Geometry T)
  (state_comp : Z) (slope0 slope0' : Array4n T) (sint0 sint0' : Array4 T)
  (i j n : Z) :
  boxArray s_mf' = boxArray s_mf ->
  (forall i j, contains (grow (boxArray s_mf) 3) i j = true ->
               array s_mf state_comp i j = array s_mf' state_comp i j) ->
  contains (grow (boxArray s_mf) 1) i j = true ->
  fab (ComputeSlopes s_mf geom (mkMultiFab (boxArray s_mf) slope0)
         state_comp sint0) i j n
  = fab (ComputeSlopes s_mf' geom (mkMultiFab (boxArray s_mf') slope0')
           state_comp sint0') i j n.
Proof.
  intros Hb Hs Hin.
  rewrite !ComputeSlopes_at by (rewrite ?Hb; exact Hin).
  f_equal. apply contains_spec in Hin.
  apply slope_kernel_ext.
  - intros i' j' Hi Hj. apply Hs. apply contains_spec.
    unfold grow in Hin |- *. cbn [lo_i lo_j hi_i hi_j] in Hin |- *. lia.
  - intros i' j' Hi Hj. unfold ComputeSlopes_sint. rewrite Hb.
    assert (Hn : contains (grow (convert_nodal (boxArray s_mf)) 1) i' j'
                 = true).
    { apply contains_spec.
      unfold grow, convert_nodal in Hin |- *.
      cbn [lo_i lo_j hi_i hi_j] in Hin |- *. lia. }
    rewrite !ParallelFor_inside by exact Hn.
    apply sint_kernel_ext. intros i'' j'' Hi' Hj'. apply Hs.
    apply contains_spec.
    unfold grow in Hin |- *. cbn [lo_i lo_j hi_i hi_j] in Hin |- *. lia.
Qed.

(** X11.  The reach of the scheme.  Two conservative runs return the same
    edge states on the faces of the valid box as soon as their states agree
    on the valid box grown by three cells and their face velocities and
    forcings on their boxes grown by one.  Nothing else is read: not the
    contents the scratch arrays [sint] and [slope] held before the run, not
    what the edge arrays held, not the state further out. *)
Theorem edge_states_reach
  (s_mf s_mf' : MultiFab T) (state_comp : Z) (geom : Geometry T)
  (xedge xedge' yedge yedge' : MultiFab T) (edge_comp : Z)
  (umac umac' vmac vmac' fq fq' : MultiFab T) (fq_comp is_conservative : Z)
  (dt : T) (slope0 slope0' : Array4n T) (sint0 sint0' : Array4 T) :
  let bx := boxArray s_mf in
  boxArray s_mf' = bx ->
  boxArray umac = xface_box bx -> boxArray umac' = xface_box bx ->
  boxArray vmac = yface_box bx -> boxArray vmac' = yface_box bx ->
  (forall i j, contains (grow bx 3) i j = true ->
               array s_mf state_comp i j = array s_mf' state_comp i j) ->
  (forall i j, contains (grow (xface_box bx) 1) i j = true ->
               array umac 0 i j = array umac' 0 i j) ->
  (forall i j, contains (grow (yface_box bx) 1) i j = true ->
               array vmac 0 i j = array vmac' 0 i j) ->
  (forall i j, contains (grow bx 1) i j = true ->
               array fq fq_comp i j = array fq' fq_comp i j) ->
  is_conservative <> 0 ->
  exists xe ye xe' ye',
    ComputeEdgeState s_mf state_comp geom xedge yedge edge_comp umac vmac fq
      fq_comp is_conservative dt slope0 sint0 = Return _ (xe, ye) /\
    ComputeEdgeState s_mf' state_comp geom xedge' yedge' edge_comp umac' vmac'
      fq' fq_comp is_conservative dt slope0' sint0' = Return _ (xe', ye') /\
    (forall i j, contains (xface_box bx) i j = true ->
                 array xe edge_comp i j = array xe' edge_comp i j) /\
    (forall i j, contains (yface_box bx) i j = true ->
                 array ye edge_comp i j = array ye' edge_comp i j).
Proof.
  intros bx Hb Bu Bu' Bv Bv' Hs Hu Hv Hf Hc.
  unfold ComputeEdgeState.
  destruct (Z.eqb_spec is_conservative 0) as [E | _]; [contradiction |].
  unfold ComputeConc. do 4 eexists.
  split; [reflexivity |]. split; [reflexivity |].
  rewrite Bu, Bu', Bv, Bv'. fold bx. split.
  - intros i j Hin. rewrite !array_write_comp.
    rewrite !ParallelFor_inside by exact Hin.
    apply contains_spec in Hin.
    unfold xface_box in Hin. cbn [lo_i lo_j hi_i hi_j] in Hin.
    apply x_edge_kernel_ext.
    + intros i' j' Hi Hj. apply Hs. apply contains_spec.
      unfold grow. cbn [lo_i lo_j hi_i hi_j]. lia.
    + intros i' j' n Hi Hj. apply ComputeSlopes_ext; [exact Hb | exact Hs |].
      apply contains_spec. unfold grow. cbn [lo_i lo_j hi_i hi_j].
      fold bx. lia.
    + intros i' j' Hi Hj. apply Hu. apply contains_spec.
      unfold grow, xface_box. cbn [lo_i lo_j hi_i hi_j]. lia.
    + intros i' j' Hi Hj. apply Hv. apply contains_spec.
      unfold grow, yface_box. cbn [lo_i lo_j hi_i hi_j]. lia.
    + intros i' j' Hi Hj. apply Hf. apply contains_spec.
      unfold grow. cbn [lo_i lo_j hi_i hi_j]. lia.
  - intros i j Hin. rewrite !array_write_comp.
    rewrite !ParallelFor_inside by exact Hin.
    apply contains_spec in Hin.
    unfold yface_box in Hin. cbn [lo_i lo_j hi_i hi_j] in Hin.
    apply y_edge_kernel_ext.
    + intros i' j' Hi Hj. apply Hs. apply contains_spec.
      unfold grow. cbn [lo_i lo_j hi_i hi_j]. lia.
    + intros i' j' n Hi Hj. apply ComputeSlopes_ext; [exact Hb | exact Hs |].
      apply contains_spec. unfold grow. cbn [lo_i lo_j hi_i hi_j].
      fold bx. lia.
    + intros i' j' Hi Hj. apply Hu. apply contains_spec.
      unfold grow, xface_box. cbn [lo_i lo_j hi_i hi_j]. lia.
    + intros i' j' Hi Hj. apply Hv. apply contains_spec.
      unfold grow, yface_box. cbn [lo_i lo_j hi_i hi_j]. lia.
    + intros i' j' Hi Hj. apply Hf. apply contains_spec.
      unfold grow. cbn [lo_i lo_j hi_i hi_j]. lia.
Qed.

Ltac split_tests :=
  repeat (match goal with
          | |- context [rltb ?a ?b] => destruct (rltb a b)
          end; cbv beta iota zeta).

(** X12.  The edge state of a face is taken from the upwind side only.
    On an x-face the state, the slopes and the forcing are read in one
    column of cells, [i-1] when [uadv(i,j) > 0] and [i] otherwise, in the
    rows [j-1 .. j+1]; on a y-face in one row, [j-1] when [vadv(i,j) > 0]
    and [j] otherwise, in the columns [i-1 .. i+1].  Whatever the other
    cells hold, the edge state is the same. *)
Theorem edge_state_is_upwind (s s' : Array4 T) (slope slope' : Array4n T)
  (uadv vadv force force' : Array4 T) (hx hy dt : T) (i j : Z) :
  (let iup := fst (x_donor uadv i j) in
   (forall j', j - 1 <= j' <= j + 1 -> s iup j' = s' iup j') ->
   (forall j' n, j - 1 <= j' <= j + 1 -> slope iup j' n = slope' iup j' n) ->
   force iup j = force' iup j ->
   x_edge_kernel s slope uadv vadv force hx hy dt i j
   = x_edge_kernel s' slope' uadv vadv force' hx hy dt i j) /\
  (let jup := fst (y_donor vadv i j) in
   (forall i', i - 1 <= i' <= i + 1 -> s i' jup = s' i' jup) ->
   (forall i' n, i - 1 <= i' <= i + 1 -> slope i' jup n = slope' i' jup n) ->
   force i jup = force' i jup ->
   y_edge_kernel s slope uadv vadv force hx hy dt i j
   = y_edge_kernel s' slope' uadv vadv force' hx hy dt i j).
Proof.
  split.
  - unfold x_edge_kernel, x_vdif, x_vaddif, x_stem, x_divu, x_gamp, x_gamm,
      x_gamma, x_donor.
    cbv beta iota zeta.
    destruct (rltb (rlit 0) (uadv i j)); cbn [fst]; cbv beta iota zeta;
      intros Hs Hsl Hf; split_tests;
      rewrite ?Hs, ?Hsl, ?Hf by lia; reflexivity.
  - unfold y_edge_kernel, y_gamp, y_gamm, y_gamma, y_donor.
    cbv beta iota zeta.
    destruct (rltb (rlit 0) (vadv i j)); cbn [fst]; cbv beta iota zeta;
      intros Hs Hsl Hf; split_tests;
      rewrite ?Hs, ?Hsl, ?Hf by lia; reflexivity.
Qed.

End Reach.

Section LinearRun.

Local Open Scope Q_scope.


End LinearRun.

Section ReachRun.

(** Binary64.  The second run differs from the first in the state far from
    the box (column 50), in what the scratch arrays held (NaN against one)
    and in what the edge arrays held. *)
Lemma edge_states_reach_witness :
  let far : Array4 B64.t :=
    fun i j => if i =? 50 then B64.nzero else Inputs.delta i j in
  exists xe ye xe' ye',
    ComputeEdgeState (T := B64.t)
      (Inputs.mf_of Inputs.cells Inputs.delta) 0 Inputs.unit_geom
      (Inputs.mf_of (xface_box Inputs.cells) (Inputs.const_field (rlit 0)))
      (Inputs.mf_of (yface_box Inputs.cells) (Inputs.const_field (rlit 0))) 0
      (Inputs.mf_of (xface_box Inputs.cells) (Inputs.const_field (rlit (1 # 2))))
      (Inputs.mf_of (yface_box Inputs.cells) (Inputs.const_field (rlit (-1 # 4))))
      (Inputs.mf_of Inputs.cells (Inputs.const_field (rlit 0))) 0 1
      (rlit (1 # 10)) (fun _ _ _ => S754_nan) (fun _ _ => S754_nan)
    = Return _ (xe, ye) /\
    ComputeEdgeState (T := B64.t)
      (Inputs.mf_of Inputs.cells far) 0 Inputs.unit_geom
      (Inputs.mf_of (xface_box Inputs.cells) (Inputs.const_field (rlit 7)))
      (Inputs.mf_of (yface_box Inputs.cells) (Inputs.const_field (rlit 7))) 0
      (Inputs.mf_of (xface_box Inputs.cells) (Inputs.const_field (rlit (1 # 2))))
      (Inputs.mf_of (yface_box Inputs.cells) (Inputs.const_field (rlit (-1 # 4))))
      (Inputs.mf_of Inputs.cells (Inputs.const_field (rlit 0))) 0 1
      (rlit (1 # 10)) (fun _ _ _ => rlit 1) (fun _ _ => rlit 1)
    = Return _ (xe', ye') /\
    (forall i j, contains (xface_box Inputs.cells) i j = true ->
                 array xe 0 i j = array xe' 0 i j) /\
    (forall i j, contains (yface_box Inputs.cells) i j = true ->
                 array ye 0 i j = array ye' 0 i j).
Proof.
  intro far.
  refine (edge_states_reach (T := B64.t)
      (Inputs.mf_of Inputs.cells Inputs.delta) (Inputs.mf_of Inputs.cells far)
      0 Inputs.unit_geom
      (Inputs.mf_of (xface_box Inputs.cells) (Inputs.const_field (rlit 0)))
      (Inputs.mf_of (xface_box Inputs.cells) (Inputs.const_field (rlit 7)))
      (Inputs.mf_of (yface_box Inputs.cells) (Inputs.const_field (rlit 0)))
      (Inputs.mf_of (yface_box Inputs.cells) (Inputs.const_field (rlit 7))) 0
      (Inputs.mf_of (xface_box Inputs.cells) (Inputs.const_field (rlit (1 # 2))))
      (Inputs.mf_of (xface_box Inputs.cells) (Inputs.const_field (rlit (1 # 2))))
      (Inputs.mf_of (yface_box Inputs.cells) (Inputs.const_field (rlit (-1 # 4))))
      (Inputs.mf_of (yface_box Inputs.cells) (Inputs.const_field (rlit (-1 # 4))))
      (Inputs.mf_of Inputs.cells (Inputs.const_field (rlit 0)))
      (Inputs.mf_of Inputs.cells (Inputs.const_field (rlit 0))) 0 1
      (rlit (1 # 10)) (fun _ _ _ => S754_nan) (fun _ _ _ => rlit 1)
      (fun _ _ => S754_nan) (fun _ _ => rlit 1) _ _ _ _ _ _ _ _ _ _).
  - reflexivity.
  - reflexivity.
  - reflexivity.
  - reflexivity.
  - reflexivity.
  - intros i j Hin. apply contains_spec in Hin.
    unfold array, Inputs.mf_of, far. cbv beta.
    change (fab (mkMultiFab Inputs.cells (fun i j _ => Inputs.delta i j)) i j 0)
      with (Inputs.delta (T := B64.t) i j).
    change (fab (mkMultiFab Inputs.cells
                   (fun i j _ => if i =? 50 then B64.nzero
                                 else Inputs.delta i j)) i j 0)
      with (if i =? 50 then B64.nzero else Inputs.delta (T := B64.t) i j).
    destruct (Z.eqb_spec i 50) as [E | _]; [| reflexivity].
    exfalso. rewrite E in Hin. destruct Hin as [[_ Hhi] _].
    apply Hhi. reflexivity.
  - intros i j _. reflexivity.
  - intros i j _. reflexivity.
  - intros i j _. reflexivity.
  - discriminate.
Defined.

(** Binary64, [u > 0] on the x-face [(2,1)] and [v <= 0] on the y-face
    [(2,1)]: the state is changed in column 2 for the one, in row 0 for the
    other. *)
Lemma edge_state_is_upwind_witness :
  let s : Array4 B64.t := Inputs.delta in
  let sx' : Array4 B64.t := fun i j => if i =? 2 then rlit 9 else s i j in
  let sy' : Array4 B64.t := fun i j => if j =? 0 then rlit 9 else s i j in
  let slope : Array4n B64.t := fun _ _ _ => rlit 1 in
  let u : Array4 B64.t := Inputs.const_field (rlit (1 # 2)) in
  let v : Array4 B64.t := Inputs.const_field (rlit (-1 # 4)) in
  let f : Array4 B64.t := Inputs.const_field (rlit 0) in
  x_edge_kernel s slope u v f (rlit 1) (rlit 1) (rlit (1 # 10)) 2 1
  = x_edge_kernel sx' slope u v f (rlit 1) (rlit 1) (rlit (1 # 10)) 2 1 /\
  y_edge_kernel s slope u v f (rlit 1) (rlit 1) (rlit (1 # 10)) 2 1
  = y_edge_kernel sy' slope u v f (rlit 1) (rlit 1) (rlit (1 # 10)) 2 1.
Proof.
  intros s sx' sy' slope u v f. split.
  - refine (proj1 (edge_state_is_upwind s sx' slope slope u v f f
                     (rlit 1) (rlit 1) (rlit (1 # 10)) 2 1) _ _ _).
    + intros j' Hj. reflexivity.
    + intros j' n Hj. reflexivity.
    + reflexivity.
  - refine (proj2 (edge_state_is_upwind s sy' slope slope u v f f
                     (rlit 1) (rlit 1) (rlit (1 # 10)) 2 1) _ _ _).
    + intros i' Hi. reflexivity.
    + intros i' n Hi. reflexivity.
    + reflexivity.
Defined.

End ReachRun.
